(** * Comfig: a shallow embedding of [index.js] and its verification

    The development follows the three classes of the source:
    - [Comfig]           the store: a tree of sections and a key index;
    - [ComfigParser]     text to tree and index;
    - [ComfigSerializer] tree to text.

    Modelling conventions.
    - A JavaScript string is a [string]: a sequence of 8-bit code units.
      Character classes of the regular expressions are restricted to that
      range ([\s] is tab, LF, VT, FF, CR, space and U+00A0).
    - A JavaScript object used as a record of data is an association list
      in the enumeration order of the engine: array-index keys first, in
      ascending numeric order, then the other keys in insertion order
      ([obj_set]).  Only own properties are modelled: a name that resolves
      on a built-in prototype ([constructor], [toString], [__proto__], ...)
      is outside the embedding.
    - A JavaScript number is a signed decimal numeral [Fin neg ip frac]
      (integer part and fractional digits), [NaN] or an infinity.  Printing
      follows Number::toString; reading a numeral is exact, which agrees
      with IEEE-754 doubles on every numeral a double prints as.
    - [this.index] maps keys to section positions: a [gmap string nat].
    - A call either returns or raises: [result].  A returned error object
      [{error: msg}] is the value [RError msg]; a raised exception is
      [Throw].
    - Values stored by reference (the buffer handed to [addKey], the values
      copied by [sync]) are never mutated through a second alias by the
      functions modelled here, so they are modelled by value.
    - The object that [object()] returns holds functions beside values:
      its properties are of the type [member].  File access ([loadSync],
      [save], [saveSync]) and [upgrade], which hands that object to [sync],
      are not part of the embedding. *)

From Stdlib Require Import ZArith NArith Ascii String.
From Stdlib Require Import DecimalString DecimalN DecimalPos.
From stdpp Require Import gmap strings list.

(** ** Characters and strings *)

Definition LF : ascii := "010"%char.
Definition CR : ascii := "013"%char.
Definition TAB : ascii := "009"%char.
Definition nl : string := String LF "".

(** [\s] and the characters removed by [String.prototype.trim]. *)
Definition is_space (c : ascii) : bool :=
  let n := nat_of_ascii c in
  ((9 <=? n) && (n <=? 13)) || (n =? 32) || (n =? 160).

(** [\d] *)
Definition is_digit (c : ascii) : bool :=
  let n := nat_of_ascii c in (48 <=? n) && (n <=? 57).

(** [\w] *)
Definition is_word (c : ascii) : bool :=
  let n := nat_of_ascii c in
  ((48 <=? n) && (n <=? 57)) || ((65 <=? n) && (n <=? 90))
  || ((97 <=? n) && (n <=? 122)) || (n =? 95).

(** [[\w_-]] *)
Definition is_keychar (c : ascii) : bool :=
  is_word c || Ascii.eqb c "-"%char.

(** [.] matches everything but a line terminator. *)
Definition is_dot (c : ascii) : bool :=
  negb (Ascii.eqb c LF || Ascii.eqb c CR).

Fixpoint str_all (p : ascii -> bool) (s : string) : bool :=
  match s with
  | EmptyString => true
  | String c s' => p c && str_all p s'
  end.

(** The longest prefix of characters in [p], and the rest. *)
Fixpoint span (p : ascii -> bool) (s : string) : string * string :=
  match s with
  | EmptyString => (EmptyString, EmptyString)
  | String c s' =>
      if p c then let '(a, b) := span p s' in (String c a, b)
      else (EmptyString, s)
  end.

Fixpoint drop_while (p : ascii -> bool) (s : string) : string :=
  match s with
  | EmptyString => EmptyString
  | String c s' => if p c then drop_while p s' else s
  end.

(** Removes the trailing characters in [p]. *)
Fixpoint drop_while_end (p : ascii -> bool) (s : string) : string :=
  match s with
  | EmptyString => EmptyString
  | String c s' =>
      match drop_while_end p s' with
      | EmptyString => if p c then EmptyString else String c EmptyString
      | r => String c r
      end
  end.

(** [s.trim()] *)
Definition trim (s : string) : string :=
  drop_while_end is_space (drop_while is_space s).

(** [s.includes(c)] for a one-character needle. *)
Fixpoint includes (c : ascii) (s : string) : bool :=
  match s with
  | EmptyString => false
  | String a s' => Ascii.eqb a c || includes c s'
  end.

(** [s.split(c)] for a one-character separator. *)
Fixpoint split (c : ascii) (s : string) : list string :=
  match s with
  | EmptyString => [EmptyString]
  | String a s' =>
      if Ascii.eqb a c then EmptyString :: split c s'
      else match split c s' with
           | [] => [String a EmptyString]
           | w :: ws => String a w :: ws
           end
  end.

(** [l.join(sep)] *)
Fixpoint join (sep : string) (l : list string) : string :=
  match l with
  | [] => EmptyString
  | [x] => x
  | x :: l' => x +:+ sep +:+ join sep l'
  end.

(** [s.replace(c, '')] with a string pattern: the first occurrence only. *)
Fixpoint remove_first (c : ascii) (s : string) : string :=
  match s with
  | EmptyString => EmptyString
  | String a s' => if Ascii.eqb a c then s' else String a (remove_first c s')
  end.

Fixpoint starts_with (p s : string) : bool :=
  match p, s with
  | EmptyString, _ => true
  | String a p', String b s' => Ascii.eqb a b && starts_with p' s'
  | _, EmptyString => false
  end.

Fixpoint last_char (s : string) : option ascii :=
  match s with
  | EmptyString => None
  | String c s' =>
      match last_char s' with
      | Some x => Some x
      | None => Some c
      end
  end.

Definition nonempty (s : string) : bool :=
  match s with EmptyString => false | _ => true end.

Fixpoint str_drop (n : nat) (s : string) : string :=
  match n, s with
  | S n', String _ s' => str_drop n' s'
  | _, _ => s
  end.

(** ** Numbers *)

Inductive number :=
| Fin (neg : bool) (ip : N) (frac : string)
| NaN
| Infinity (neg : bool).

(** Decimal digits of a natural number, most significant first. *)
Definition dec (n : N) : string := NilEmpty.string_of_uint (N.to_uint n).

(** The value of a string of decimal digits. *)
Definition undec (s : string) : option N :=
  if nonempty s && str_all is_digit s
  then N.of_uint <$> NilEmpty.uint_of_string s
  else None.

Definition is_zero_char (c : ascii) : bool := Ascii.eqb c "0"%char.

(** The mantissa of the exponential notation: [d] or [d.ddd]. *)
Definition mantissa (sd : string) : string :=
  match sd with
  | String d EmptyString => sd
  | String d rest => String d ("." +:+ rest)
  | EmptyString => EmptyString
  end.

(** Number::toString(x) in radix 10, where [frac] carries no trailing
    zero. *)
Definition num_to_string (x : number) : string :=
  match x with
  | NaN => "NaN"
  | Infinity neg => if neg then "-Infinity" else "Infinity"
  | Fin neg ip frac =>
      let frac := drop_while_end is_zero_char frac in
      if (ip =? 0)%N && negb (nonempty frac) then "0"
      else
        (if neg then "-" else "") +:+
        (if (ip =? 0)%N then
           let z := String.length (fst (span is_zero_char frac)) in
           if z <? 6 then "0." +:+ frac
           else mantissa (str_drop z frac) +:+ "e-" +:+ dec (N.of_nat (S z))
         else
           let ds := dec ip in
           let n := String.length ds in
           if n <=? 21 then
             if nonempty frac then ds +:+ "." +:+ frac else ds
           else
             mantissa (drop_while_end is_zero_char (ds +:+ frac))
               +:+ "e+" +:+ dec (N.of_nat (n - 1)))
  end.

(** [/^\d+$/.test(s)] *)
Definition is_int_literal (s : string) : bool :=
  nonempty s && str_all is_digit s.

(** [/^\d+\.\d+$/.test(s)] *)
Definition is_float_literal (s : string) : bool :=
  let '(a, b) := span is_digit s in
  nonempty a &&
  match b with
  | String "." f => nonempty f && str_all is_digit f
  | _ => false
  end.

(** [parseInt(s)], for [s] a string of digits; [NaN] stands for the
    strings outside that use. *)
Definition parseInt (s : string) : number :=
  match undec s with
  | Some n => Fin false n EmptyString
  | None => NaN
  end.

(** [parseFloat(s)], for [s] of the form digits, point, digits; trailing
    zeros of the fraction do not change the number. *)
Definition parseFloat (s : string) : number :=
  let '(a, b) := span is_digit s in
  match undec a, b with
  | Some n, String "." f =>
      if str_all is_digit f then Fin false n (drop_while_end is_zero_char f)
      else NaN
  | _, _ => NaN
  end.

(** ** Values *)

#[local] Set Warnings "-register-all".

Inductive value :=
| VUndefined
| VNull
| VBool (b : bool)
| VNum (n : number)
| VStr (s : string)
| VArr (elems : list value)
| VObj (props : list (string * value)).

Definition VInt (n : N) : value := VNum (Fin false n "").

(** A plain object: its own enumerable properties, in enumeration order. *)
Abbreviation object := (list (string * value)).

(** ToBoolean *)
Definition truthy (v : value) : bool :=
  match v with
  | VUndefined | VNull => false
  | VBool b => b
  | VNum (Fin _ ip frac) =>
      negb ((ip =? 0)%N && str_all is_zero_char frac)
  | VNum NaN => false
  | VNum (Infinity _) => true
  | VStr s => nonempty s
  | VArr _ | VObj _ => true
  end.

(** ToString on the values a template literal receives. *)
Fixpoint to_string (v : value) : string :=
  match v with
  | VUndefined => "undefined"
  | VNull => "null"
  | VBool true => "true"
  | VBool false => "false"
  | VNum n => num_to_string n
  | VStr s => s
  | VArr l =>
      join ","
        (map (fun x => match x with
                       | VUndefined | VNull => EmptyString
                       | _ => to_string x
                       end) l)
  | VObj _ => "[object Object]"
  end.

(** *** Property keys *)

(** An array index: a canonical numeric string below 2^32 - 1. *)
Definition array_index (k : string) : option N :=
  match undec k with
  | Some n => if String.eqb (dec n) k && (n <? 4294967295)%N then Some n else None
  | None => None
  end.

Fixpoint obj_get (k : string) (o : object) : option value :=
  match o with
  | [] => None
  | (k', v) :: o' => if String.eqb k' k then Some v else obj_get k o'
  end.

(** [o[k]]: a missing property reads as [undefined]. *)
Definition prop (o : object) (k : string) : value :=
  default VUndefined (obj_get k o).

(** [k in o] for own properties. *)
Definition obj_has (k : string) (o : object) : bool :=
  match obj_get k o with Some _ => true | None => false end.

(** [Object.keys(o)] *)
Definition obj_keys (o : object) : list string := map fst o.

Fixpoint obj_replace (k : string) (v : value) (o : object) : object :=
  match o with
  | [] => []
  | (k', v') :: o' =>
      if String.eqb k' k then (k', v) :: o' else (k', v') :: obj_replace k v o'
  end.

(** Position of a new array-index key: before the first key that is no
    array index or a greater one. *)
Fixpoint obj_insert_index (n : N) (k : string) (v : value) (o : object) : object :=
  match o with
  | [] => [(k, v)]
  | (k', v') :: o' =>
      match array_index k' with
      | Some n' =>
          if (n <? n')%N then (k, v) :: o
          else (k', v') :: obj_insert_index n k v o'
      | None => (k, v) :: o
      end
  end.

(** [o[k] = v] *)
Definition obj_set (k : string) (v : value) (o : object) : object :=
  if obj_has k o then obj_replace k v o
  else match array_index k with
       | Some n => obj_insert_index n k v o
       | None => o ++ [(k, v)]
       end.

(** [delete o[k]] *)
Fixpoint obj_delete (k : string) (o : object) : object :=
  match o with
  | [] => []
  | (k', v') :: o' =>
      if String.eqb k' k then o' else (k', v') :: obj_delete k o'
  end.

(** *** Member access on arbitrary values *)

(** [a[n]] on an array; a hole or a position past the end reads as
    [undefined]. *)
Definition arr_get (n : nat) (l : list value) : value :=
  default VUndefined (l !! n).

(** [a[n] = v]: positions between the old end and [n] become holes. *)
Definition arr_set (n : nat) (v : value) (l : list value) : list value :=
  if n <? length l then <[n := v]> l
  else l ++ replicate (n - length l) VUndefined ++ [v].

(** [a.length = n] *)
Definition arr_resize (n : nat) (l : list value) : list value :=
  take n l ++ replicate (n - length l) VUndefined.

(** A call returns a value or raises. *)
Inductive result (A : Type) :=
| Ok (a : A)
| Throw (err : string).
Arguments Ok {A} a.
Arguments Throw {A} err.

Definition bind {A B} (r : result A) (f : A -> result B) : result B :=
  match r with
  | Ok a => f a
  | Throw e => Throw e
  end.

Notation "'let*' x := r 'in' k" := (bind r (fun x => k))
  (at level 10, x pattern, r at level 100, k at level 200).

(** [v[name]] *)
Definition get_member (v : value) (name : string) : result value :=
  match v with
  | VUndefined | VNull => Throw "TypeError"
  | VObj o => Ok (prop o name)
  | VArr l =>
      match array_index name with
      | Some n => Ok (arr_get (N.to_nat n) l)
      | None =>
          if String.eqb name "length" then Ok (VInt (N.of_nat (length l)))
          else Ok VUndefined
      end
  | VStr s =>
      match array_index name with
      | Some n =>
          match String.get (N.to_nat n) s with
          | Some c => Ok (VStr (String c EmptyString))
          | None => Ok VUndefined
          end
      | None =>
          if String.eqb name "length" then Ok (VInt (N.of_nat (String.length s)))
          else Ok VUndefined
      end
  | VBool _ | VNum _ => Ok VUndefined
  end.

(** [v[name] = x] in strict mode; the result is the container after the
    assignment.  A named property of an array other than [length] lives
    beside its elements, which it leaves as they are. *)
Definition set_member (v : value) (name : string) (x : value) : result value :=
  match v with
  | VUndefined | VNull | VBool _ | VNum _ | VStr _ => Throw "TypeError"
  | VObj o => Ok (VObj (obj_set name x o))
  | VArr l =>
      match array_index name with
      | Some n => Ok (VArr (arr_set (N.to_nat n) x l))
      | None =>
          if String.eqb name "length" then
            match x with
            | VNum (Fin false n EmptyString) =>
                if (n <? 4294967296)%N then Ok (VArr (arr_resize (N.to_nat n) l))
                else Throw "RangeError"
            | _ => Throw "RangeError"
            end
          else Ok (VArr l)
      end
  end.

(** ToIntegerOrInfinity of a string holding an optionally signed decimal
    numeral, the fraction truncated; any other string counts as [NaN] and
    gives 0.  (Exponents, hexadecimal numerals and surrounding blanks are
    left out.) *)
Definition to_integer (s : string) : Z :=
  let '(sign, body) :=
    match s with
    | String "-" r => (-1, r)
    | String "+" r => (1, r)
    | _ => (1, s)
    end%Z in
  let '(a, b) := span is_digit body in
  match undec a with
  | Some n =>
      match b with
      | EmptyString => (sign * Z.of_N n)%Z
      | String "." f => if str_all is_digit f then (sign * Z.of_N n)%Z else 0%Z
      | _ => 0%Z
      end
  | None => 0%Z
  end.

(** [a.splice(start, 1)] *)
Definition arr_splice1 (start : Z) (l : list value) : list value :=
  let len := Z.of_nat (length l) in
  let from := if (start <? 0)%Z then Z.max (len + start) 0 else Z.min start len in
  take (Z.to_nat from) l ++ drop (S (Z.to_nat from)) l.

(** ** The store: class [Comfig] *)

Record section := Section_ { comment : string; data : object }.

Record options := Options {
  opt_comment : string;   (* comment style for new comments *)
  opt_assign : string;    (* assign operator *)
  opt_indent : string     (* indentation *)
}.

Record store := Store {
  opts : options;
  tree : list section;
  index : gmap string nat
}.

(** The value a method hands back. *)
Inductive ret :=
| RUndefined
| RBool (b : bool)
| RInt (n : nat)
| RError (msg : string).

(** [const [key, subkey] = dotKey.split('.')]: [subkey] is [undefined]
    when the path has no dot. *)
Definition split_path (dotKey : string) : string * option string :=
  match split "."%char dotKey with
  | key :: subkey :: _ => (key, Some subkey)
  | key :: [] => (key, None)
  | [] => (EmptyString, None)
  end.

(** [name in opts]: the field is there. *)
Definition present {A} (o : option A) : bool :=
  match o with Some _ => true | None => false end.

(** [if(subkey)] *)
Definition given (subkey : option string) : option string :=
  match subkey with
  | Some s => if nonempty s then Some s else None
  | None => None
  end.

Definition with_data (s : section) (d : object) : section :=
  {| comment := comment s; data := d |}.

Definition with_tree (st : store) (t : list section) : store :=
  {| opts := opts st; tree := t; index := index st |}.

Definition with_index (st : store) (ix : gmap string nat) : store :=
  {| opts := opts st; tree := tree st; index := ix |}.

(** [t.splice(idx, 1)] *)
Definition splice_out (idx : nat) (t : list section) : list section :=
  take idx t ++ drop (S idx) t.

(** [t.splice(idx, 0, s)] *)
Definition splice_in (idx : nat) (s : section) (t : list section) : list section :=
  take idx t ++ s :: drop idx t.

Module Comfig.

Definition empty (o : options) : store :=
  {| opts := o; tree := []; index := ∅ |}.

(** [_rebuildIndex] *)
Fixpoint rebuild_from (idx : nat) (t : list section) (ix : gmap string nat)
  : gmap string nat :=
  match t with
  | [] => ix
  | s :: t' =>
      rebuild_from (S idx) t'
        (foldl (fun ix key => <[key := idx]> ix) ix (obj_keys (data s)))
  end.

Definition _rebuildIndex (st : store) : store :=
  with_index st (rebuild_from 0 (tree st) ∅).

(** [get(dotKey, dflt)] *)
Definition get (st : store) (dotKey : string) (dflt : value) : result value :=
  let '(key, subkey) := split_path dotKey in
  match index st !! key with
  | None => Ok dflt
  | Some idx =>
      match tree st !! idx with
      | None => Throw "TypeError"
      | Some s =>
          match given subkey with
          | Some sk =>
              let* v := get_member (prop (data s) key) sk in
              Ok (match v with VUndefined => dflt | _ => v end)
          | None => Ok (prop (data s) key)
          end
      end
  end.

(** [getKeys()] *)
Definition getKeys (st : store) : list string :=
  foldl (fun keys s => keys ++ obj_keys (data s)) [] (tree st).


(** [_validateSubkeyValue(value)]: [true] when the error object is
    returned. *)
Definition _validateSubkeyValue (v : value) : bool :=
  match v with
  | VArr _ | VObj _ => true
  | VStr s => includes LF s
  | _ => false
  end.

Definition invalid_subkey_error : ret :=
  RError "invalid object value, deep objects, arrays and multiline strings are not allowed".

(** [_formatComment(comment)] for a string or a missing comment. *)
Definition _formatComment (o : options) (c : option string) : string :=
  match c with
  | None => EmptyString
  | Some EmptyString => EmptyString
  | Some c =>
      join nl (map (fun line => opt_comment o +:+ " " +:+ line) (split LF c))
        +:+ nl
  end.

Record set_opts := SetOpts { create : bool; set_comment : option string }.

(** [set(dotKey, value, opts)] *)
Definition set (st : store) (dotKey : string) (v : value) (o : set_opts)
  : result (store * ret) :=
  let '(key, subkey) := split_path dotKey in
  match index st !! key with
  | None =>
      if negb (create o) then Ok (st, RError "config option does not exist")
      else
        let push d :=
          let t := tree st ++ [ {| comment := _formatComment (opts st) (set_comment o);
                                   data := d |} ] in
          Ok ({| opts := opts st; tree := t;
                 index := <[key := length t - 1]> (index st) |},
              RInt (length t - 1)) in
        match given subkey with
        | Some sk =>
            if _validateSubkeyValue v then Ok (st, invalid_subkey_error)
            else push [(key, VObj [(sk, v)])]
        | None => push [(key, v)]
        end
  | Some idx =>
      match given subkey with
      | Some sk =>
          if _validateSubkeyValue v then Ok (st, invalid_subkey_error)
          else
            match tree st !! idx with
            | None => Throw "TypeError"
            | Some s =>
                let* item := set_member (prop (data s) key) sk v in
                Ok (with_tree st
                      (<[idx := with_data s (obj_replace key item (data s))]> (tree st)),
                    RInt idx)
            end
      | None =>
          match tree st !! idx with
          | None => Throw "TypeError"
          | Some s =>
              Ok (with_tree st
                    (<[idx := with_data s (obj_set key v (data s))]> (tree st)),
                  RInt idx)
          end
      end
  end.

(** [delete(dotKey, removeComment)] *)
Definition delete (st : store) (dotKey : string) (removeComment : bool)
  : result (store * ret) :=
  let '(key, subkey) := split_path dotKey in
  match index st !! key with
  | None => Ok (st, RBool false)
  | Some idx =>
      match tree st !! idx with
      | None => Throw "TypeError"
      | Some s =>
          match given subkey with
          | Some sk =>
              let put item :=
                Ok (with_tree st
                      (<[idx := with_data s (obj_replace key item (data s))]> (tree st)),
                    RBool true) in
              match prop (data s) key with
              | VArr l => put (VArr (arr_splice1 (to_integer sk) l))
              | VObj o => put (VObj (obj_delete sk o))
              | _ => Ok (st, RError "not an object/array")
              end
          | None =>
              let d := obj_delete key (data s) in
              let t := <[idx := with_data s d]> (tree st) in
              let ix := base.delete key (index st) in
              if (0 <? length (obj_keys d))
                 || (nonempty (comment s) && negb removeComment)
              then Ok ({| opts := opts st; tree := t; index := ix |}, RBool true)
              else
                Ok (_rebuildIndex
                      {| opts := opts st; tree := splice_out idx t; index := ix |},
                    RBool true)
          end
      end
  end.

(** [hasKey(dotKey)] *)
Definition hasKey (st : store) (dotKey : string) : result bool :=
  let* v := get st dotKey VUndefined in Ok (truthy v).


(** [addSectionKey(idx, key, value)] *)
Definition addSectionKey (st : store) (idx : nat) (key : string) (v : value)
  : store * ret :=
  match tree st !! idx with
  | None => (st, RError "invalid section id")
  | Some s =>
      match index st !! key with
      | Some (S _) => (st, RError "key already exist")
      | _ =>
          ({| opts := opts st;
              tree := <[idx := with_data s (obj_set key v (data s))]> (tree st);
              index := <[key := idx]> (index st) |},
           RUndefined)
      end
  end.

Record section_opts := SectionOpts {
  so_id : option nat;
  so_key : option string;
  so_value : option value;
  so_comment : option string
}.

Definition truthy_str (s : option string) : bool :=
  match s with Some s => nonempty s | None => false end.

(** [addSection(opts)]; a field of [opts] is either absent or holds a
    value of its documented type. *)
Definition addSection (st : store) (o : section_opts) : store * ret :=
  if negb (present (so_id o)) && negb (present (so_key o))
     && negb (present (so_value o)) && negb (present (so_comment o))
  then (st, RError "no params supplied")
  else if (truthy_str (so_key o) || present (so_value o))
          && (negb (truthy_str (so_key o)) || negb (present (so_value o)))
  then (st, RError "when setting key, both key and value are required")
  else
    let key := default EmptyString (so_key o) in
    if truthy_str (so_key o) && present (index st !! key)
    then (st, RError "key already exist")
    else
      let d : option object :=
        if truthy_str (so_key o)
        then Some [(key, default VUndefined (so_value o))] else None in
      let s := {| comment := _formatComment (opts st) (so_comment o);
                  data := default [] d |} in
      match so_id o with
      | Some id =>
          if negb (present d) && negb (truthy_str (so_comment o))
          then (st, RError "no data")
          else if negb (present (tree st !! id))
          then (st, RError "invalid section id")
          else (_rebuildIndex (with_tree st (splice_in id s (tree st))), RInt id)
      | None =>
          let t := tree st ++ [s] in
          (_rebuildIndex (with_tree st t), RInt (length t - 1))
      end.

(** [moveSection(idxFrom, idxTo)] *)
Definition moveSection (st : store) (idxFrom idxTo : nat) : store * ret :=
  match tree st !! idxFrom, tree st !! idxTo with
  | Some s, Some _ =>
      let t := splice_out idxFrom (tree st) in
      let idxTo := if idxFrom <? idxTo then idxTo - 1 else idxTo in
      (_rebuildIndex (with_tree st (splice_in idxTo s t)), RUndefined)
  | _, _ => (st, RError "invalid section id")
  end.

(** [_commonArrays(arr1, arr2)] *)
Definition _commonArrays (arr1 arr2 : list string) : bool :=
  length (filter (fun item => item ∈ arr2) arr1) =? length arr2.

(** [reorderSection(idx, newOrder)] *)
Definition reorderSection (st : store) (idx : nat) (newOrder : list string)
  : store * ret :=
  match tree st !! idx with
  | None => (st, RError "invalid section id")
  | Some s =>
      if negb (_commonArrays (obj_keys (data s)) newOrder)
      then (st, RError "invalid new order array")
      else
        let d := foldl (fun d key => obj_set key (prop (data s) key) d) [] newOrder in
        (with_tree st (<[idx := with_data s d]> (tree st)), RUndefined)
  end.

(** [deleteSection(idx)] *)
Definition deleteSection (st : store) (idx : nat) : store * ret :=
  match tree st !! idx with
  | None => (st, RError "invalid section id")
  | Some _ => (_rebuildIndex (with_tree st (splice_out idx (tree st))), RUndefined)
  end.

Record sync_opts := SyncOpts { update : bool; merge : bool; mirror : bool }.

(** The own enumerable properties of the argument of [sync], when
    [typeof obj] is ['object'] and [obj] is not [null]. *)
Definition own_entries (obj : value) : option object :=
  match obj with
  | VObj o => Some o
  | VArr l => Some (imap (fun i v => (dec (N.of_nat i), v)) l)
  | _ => None
  end.

(** [key[0] != '$'] *)
Definition unmarked (key : string) : bool :=
  match key with
  | String c _ => negb (Ascii.eqb c "$"%char)
  | EmptyString => true
  end.

(** [this.tree[idx].data[key] = v] *)
Definition assign_at (st : store) (idx : nat) (key : string) (v : value)
  : result store :=
  match tree st !! idx with
  | None => Throw "TypeError"
  | Some s =>
      Ok (with_tree st (<[idx := with_data s (obj_set key v (data s))]> (tree st)))
  end.

(** The loop of the [update] mode: [for(const key in obj)]. *)
Fixpoint _sync__update (keys : list string) (obj : object) (st : store)
  : result store :=
  match keys with
  | [] => Ok st
  | key :: keys' =>
      match index st !! key with
      | Some idx =>
          let* st' := assign_at st idx key (prop obj key) in
          _sync__update keys' obj st'
      | None => _sync__update keys' obj st
      end
  end.

(** [_sync__merge(mergeKeys, obj)] *)
Fixpoint _sync__merge (mergeKeys : list string) (obj : object) (st : store)
  : result store :=
  match mergeKeys with
  | [] => Ok st
  | key :: keys' =>
      match index st !! key with
      | Some idx =>
          let* st' := assign_at st idx key (prop obj key) in
          _sync__merge keys' obj st'
      | None =>
          _sync__merge keys' obj
            (with_tree st
               (tree st ++ [ {| comment := EmptyString;
                                data := [(key, prop obj key)] |} ]))
      end
  end.

(** The second loop of the [mirror] mode. *)
Fixpoint _sync__prune (localKeys objKeys : list string) (st : store)
  : result store :=
  match localKeys with
  | [] => Ok st
  | localKey :: keys' =>
      if bool_decide (localKey ∈ objKeys) then _sync__prune keys' objKeys st
      else
        let* r := delete st localKey true in
        _sync__prune keys' objKeys (fst r)
  end.

(** [sync(obj, opts)] *)
Definition sync (st : store) (obj : value) (o : sync_opts)
  : result (store * ret) :=
  match own_entries obj with
  | None => Ok (st, RError "sync requires an object")
  | Some e =>
      let objKeys := filter (fun key => unmarked key = true) (obj_keys e) in
      if update o then
        let* st' := _sync__update (obj_keys e) e st in
        Ok (_rebuildIndex st', RUndefined)
      else if merge o then
        let* st' := _sync__merge objKeys e st in
        Ok (_rebuildIndex st', RUndefined)
      else if mirror o then
        let* st1 := _sync__merge objKeys e st in
        let* st2 := _sync__prune (getKeys st1) objKeys st1 in
        Ok (_rebuildIndex st2, RUndefined)
      else Ok (st, RError "sync mode not specified")
  end.

(** [clear()] *)
Definition clear (st : store) : store :=
  {| opts := opts st; tree := []; index := ∅ |}.

(** [/^\s*[:=]\s*$/.test(assign)] *)
Definition assign_test (assign : string) : bool :=
  match drop_while is_space assign with
  | String c r =>
      (Ascii.eqb c ":"%char || Ascii.eqb c "="%char) && str_all is_space r
  | EmptyString => false
  end.

(** [/^[ \t]+$$/.test(indent)] *)
Definition indent_test (indent : string) : bool :=
  nonempty indent
  && str_all (fun c => Ascii.eqb c " "%char || Ascii.eqb c TAB) indent.

(** [new Comfig(undefined, opts)]: the constructor without a file, on
    options given in full. *)
Definition new (o : options) : result store :=
  if negb (assign_test (opt_assign o))
  then Throw "Comfig: invalid .assign opt, use `:` or `=`"
  else if negb (indent_test (opt_indent o))
  then Throw "Comfig: invalid .indent opt, use tabs or spaces"
  else Ok (empty o).

(** *** Comments *)

(** [opts] of [setComment] *)
Record comment_opts := CommentOpts { add : bool; raw : bool }.

(** The first argument of [setComment] and [getComment]: an integer, a
    string, or a value of another type. *)
Inductive entity :=
| ESection (idx : Z)
| EKey (key : string)
| EOther.

(** [this.tree[idx]] for an integer [idx] *)
Definition section_at (t : list section) (idx : Z) : option section :=
  if (idx <? 0)%Z then None else t !! Z.to_nat idx.

(** [comment.endsWith('\n')] *)
Definition ends_with_nl (c : string) : bool :=
  match last_char c with
  | Some a => Ascii.eqb a LF
  | None => false
  end.

(** [_setComment(idx, comment, opts)]; [comment] is a string, or [null]
    as [deleteComment] passes it. *)
Definition _setComment (st : store) (idx : nat) (c : option string)
    (o : comment_opts) : result (store * ret) :=
  let* text :=
    if raw o then
      match c with
      | Some c => Ok (if ends_with_nl c then c else c +:+ nl)
      | None => Throw "TypeError"
      end
    else Ok (_formatComment (opts st) c) in
  match tree st !! idx with
  | None => Throw "TypeError"
  | Some s =>
      Ok (with_tree st
            (<[idx := {| comment := if add o then comment s +:+ text else text;
                         data := data s |}]> (tree st)),
          RUndefined)
  end.

(** [setKeyComment(key, comment, opts)] *)
Definition setKeyComment (st : store) (key : string) (c : option string)
    (o : comment_opts) : result (store * ret) :=
  match index st !! key with
  | None => Ok (st, RError "config option does not exist")
  | Some idx => _setComment st idx c o
  end.

(** [setSectionComment(idx, comment, opts)] *)
Definition setSectionComment (st : store) (idx : Z) (c : option string)
    (o : comment_opts) : result (store * ret) :=
  match section_at (tree st) idx with
  | None => Ok (st, RError "invalid section id")
  | Some _ => _setComment st (Z.to_nat idx) c o
  end.

(** [setComment(entityId, comment, opts)] *)
Definition setComment (st : store) (entityId : entity) (c : option string)
    (o : comment_opts) : result (store * ret) :=
  match entityId with
  | ESection idx => setSectionComment st idx c o
  | EKey key => setKeyComment st key c o
  | EOther => Ok (st, RError "invalid entity id, must be key name or section id")
  end.

(** [deleteComment(entityId)] *)
Definition deleteComment (st : store) (entityId : entity) : result (store * ret) :=
  setComment st entityId None (CommentOpts false false).

(** [\p{L}] or [\p{N}] on the code points below 256: the ASCII letters and
    digits, the ordinal indicators, the micro sign, the superscript digits,
    the vulgar fractions and the accented Latin letters. *)
Definition is_letter_or_number (c : ascii) : bool :=
  let n := nat_of_ascii c in
  ((48 <=? n) && (n <=? 57)) || ((65 <=? n) && (n <=? 90))
  || ((97 <=? n) && (n <=? 122))
  || (n =? 170) || (n =? 178) || (n =? 179) || (n =? 181)
  || (n =? 185) || (n =? 186) || ((188 <=? n) && (n <=? 190))
  || ((192 <=? n) && (n <=? 214)) || ((216 <=? n) && (n <=? 246))
  || (248 <=? n).

(** [\s*(.+)] at the head of [s]: the blanks are taken greedily and given
    back one by one until a character that is no line terminator follows;
    the group runs to the next line terminator. *)
Fixpoint blanks_then_text (s : string) : option string :=
  match s with
  | EmptyString => None
  | String c r =>
      let here := if is_dot c then Some (fst (span is_dot s)) else None in
      if is_space c then
        match blanks_then_text r with
        | Some g => Some g
        | None => here
        end
      else here
  end.

(** [[^\p{L}\p{N}]*\s*(.+)] at the head of [s], the class taken greedily
    and given back one character at a time. *)
Fixpoint symbols_then_text (s : string) : option string :=
  match s with
  | EmptyString => None
  | String c r =>
      if negb (is_letter_or_number c) then
        match symbols_then_text r with
        | Some g => Some g
        | None => blanks_then_text s
        end
      else blanks_then_text s
  end.

(** [/^[^\p{L}\p{N}]+\s*(.+)/u.exec(line)]: the group, when the line
    matches. *)
Definition match_comment (line : string) : option string :=
  match line with
  | String c r =>
      if negb (is_letter_or_number c) then symbols_then_text r else None
  | EmptyString => None
  end.

(** [_getComment__strip(str)] *)
Definition _getComment__strip (str : string) : list string :=
  omap match_comment (split LF str).

(** What [getComment] returns: the raw comment, the stripped lines, or an
    error object. *)
Inductive comment_ret :=
| CRaw (c : string)
| CLines (lines : list string)
| CError (msg : string).

Definition comment_of (raw : bool) (c : string) : comment_ret :=
  if raw then CRaw c else CLines (_getComment__strip c).

(** [getKeyComment(key, raw)] *)
Definition getKeyComment (st : store) (key : string) (raw : bool)
  : result comment_ret :=
  match index st !! key with
  | None => Ok (CError "config option does not exist")
  | Some idx =>
      match tree st !! idx with
      | None => Throw "TypeError"
      | Some s => Ok (comment_of raw (comment s))
      end
  end.

(** [getSectionComment(idx, raw)] *)
Definition getSectionComment (st : store) (idx : Z) (raw : bool) : comment_ret :=
  match section_at (tree st) idx with
  | Some s => comment_of raw (comment s)
  | None => CError "invalid section id"
  end.

(** [getComment(entityId, raw)] *)
Definition getComment (st : store) (entityId : entity) (raw : bool)
  : result comment_ret :=
  match entityId with
  | ESection idx => Ok (getSectionComment st idx raw)
  | EKey key => getKeyComment st key raw
  | EOther => Ok (CError "invalid entity id, must be key name or section id")
  end.



(** *** The object form *)

(** A property of the object that [object()] returns: a value of the
    store, or one of the four methods the object is armed with. *)
Inductive member :=
| Data (v : value)
| Method (name : string).

(** Objects with values of any kind: [o[k]], and [o[k] = x] in the
    enumeration order of [obj_set]. *)
Fixpoint entries_get {A} (k : string) (o : list (string * A)) : option A :=
  match o with
  | [] => None
  | (k', x) :: o' => if String.eqb k' k then Some x else entries_get k o'
  end.

Fixpoint entries_replace {A} (k : string) (x : A) (o : list (string * A))
  : list (string * A) :=
  match o with
  | [] => []
  | (k', x') :: o' =>
      if String.eqb k' k then (k', x) :: o' else (k', x') :: entries_replace k x o'
  end.

Fixpoint entries_insert_index {A} (n : N) (k : string) (x : A)
    (o : list (string * A)) : list (string * A) :=
  match o with
  | [] => [(k, x)]
  | (k', x') :: o' =>
      match array_index k' with
      | Some n' =>
          if (n <? n')%N then (k, x) :: o
          else (k', x') :: entries_insert_index n k x o'
      | None => (k, x) :: o
      end
  end.

Definition entries_set {A} (k : string) (x : A) (o : list (string * A))
  : list (string * A) :=
  if present (entries_get k o) then entries_replace k x o
  else match array_index k with
       | Some n => entries_insert_index n k x o
       | None => o ++ [(k, x)]
       end.

(** The methods of the object form, in the order of the literal. *)
Definition conf : list (string * member) :=
  [ ("$", Method "$"); ("$save", Method "$save");
    ("$saveSync", Method "$saveSync"); ("$sync", Method "$sync") ].

(** [Object.assign(obj, entry.data)] *)
Definition assign_data (obj : object) (d : object) : object :=
  foldl (fun obj e => obj_set (fst e) (snd e) obj) obj d.

(** [object()] *)
Definition object (st : store) : list (string * member) :=
  let obj := foldl (fun obj entry => assign_data obj (data entry)) [] (tree st) in
  foldl (fun conf e => entries_set (fst e) (Data (snd e)) conf) conf obj.

End Comfig.

(** ** The serializer: class [ComfigSerializer] *)

Definition DQ : ascii := "034"%char.
Definition triple_quote : string := String DQ (String DQ (String DQ EmptyString)).

Module ComfigSerializer.

Definition invalid_value_error : string :=
  "Comfig: invalid object value, deep objects, arrays and multiline strings are not allowed".

(** [throwOnInvalidSubkey(data)] *)
Definition throwOnInvalidSubkey (v : value) : result unit :=
  match v with
  | VArr _ | VObj _ => Throw invalid_value_error
  | VStr s => if includes LF s then Throw invalid_value_error else Ok tt
  | _ => Ok tt
  end.

(** The loop over the elements of an array value.  (The source first
    computes [elems], which it never uses.) *)
Fixpoint array_body (indent : string) (l : list value) : result (list string) :=
  match l with
  | [] => Ok []
  | v :: l' =>
      let* _ := throwOnInvalidSubkey v in
      let* body := array_body indent l' in
      Ok ((indent +:+ to_string v) :: body)
  end.

(** The loop over the sub-keys of an object value. *)
Fixpoint object_body (assign indent : string) (o : object) : result (list string) :=
  match o with
  | [] => Ok []
  | (skey, v) :: o' =>
      let* _ := throwOnInvalidSubkey v in
      let* body := object_body assign indent o' in
      Ok ((indent +:+ skey +:+ assign +:+ to_string v) :: body)
  end.

(** The text pushed for one key of a section. *)
Definition render (assign indent key : string) (v : value) : result string :=
  match v with
  | VArr l =>
      let* body := array_body indent l in
      Ok (key +:+ assign +:+ "[" +:+ nl +:+ join nl body +:+ nl +:+ "]" +:+ nl)
  | VObj o =>
      let* body := object_body assign indent o in
      Ok (key +:+ assign +:+ "{" +:+ nl +:+ join nl body +:+ nl +:+ "}" +:+ nl)
  | VStr s =>
      if includes LF s
      then Ok (key +:+ assign +:+ triple_quote +:+ nl +:+ s +:+ nl +:+ triple_quote +:+ nl)
      else Ok (key +:+ assign +:+ s +:+ nl)
  | VUndefined => Ok (key +:+ assign +:+ to_string VNull +:+ nl)
  | _ => Ok (key +:+ assign +:+ to_string v +:+ nl)
  end.

Fixpoint render_data (assign indent : string) (d : object) : result (list string) :=
  match d with
  | [] => Ok []
  | (key, v) :: d' =>
      let* x := render assign indent key v in
      let* xs := render_data assign indent d' in
      Ok (x :: xs)
  end.

(** The entries pushed on [lines] for the whole tree. *)
Fixpoint render_tree (assign indent : string) (t : list section) : result (list string) :=
  match t with
  | [] => Ok []
  | s :: t' =>
      let* xs := render_data assign indent (data s) in
      let* rest := render_tree assign indent t' in
      Ok ((if nonempty (comment s) then [comment s] else []) ++ xs ++ [nl] ++ rest)
  end.

(** [while(lines[lines.length - 1] == '\n') lines.pop()] *)
Fixpoint pop_newlines (lines : list string) : list string :=
  match lines with
  | [] => []
  | x :: lines' =>
      match pop_newlines lines' with
      | [] => if String.eqb x nl then [] else [x]
      | r => x :: r
      end
  end.

(** [serialize()] *)
Definition serialize (t : list section) (o : options) : result string :=
  let* lines := render_tree (opt_assign o) (opt_indent o) t in
  Ok (join EmptyString (pop_newlines lines)).

End ComfigSerializer.

(** ** The parser: class [ComfigParser] *)

(** [^([\w_-]+)\s*[:=]]: the key and what follows the assign character.
    The three classes are disjoint, so the greedy match is the only one. *)
Definition match_key_assign (line : string) : option (string * string) :=
  let '(key, r) := span is_keychar line in
  if nonempty key then
    match drop_while is_space r with
    | String c r' =>
        if Ascii.eqb c ":"%char || Ascii.eqb c "="%char then Some (key, r')
        else None
    | EmptyString => None
    end
  else None.

(** [regex.multistring]: the key, the assign character, [\s*], one literal
    space and three double quotes.  The quotes are no blanks, so the run of
    blanks after the assign character has to end in that space. *)
Definition match_multistring (line : string) : option string :=
  match match_key_assign line with
  | Some (key, r) =>
      let '(ws, r') := span is_space r in
      if bool_decide (last_char ws = Some " "%char) && starts_with triple_quote r'
      then Some key else None
  | None => None
  end.

(** [regex.array]: [/^([\w_-]+)\s*[:=]\s*\[/] *)
Definition match_array (line : string) : option string :=
  match match_key_assign line with
  | Some (key, r) =>
      if starts_with "[" (drop_while is_space r) then Some key else None
  | None => None
  end.

(** [regex.object]: [/^([\w_-]+)\s*[:=]\s*{/] *)
Definition match_object (line : string) : option string :=
  match match_key_assign line with
  | Some (key, r) =>
      if starts_with "{" (drop_while is_space r) then Some key else None
  | None => None
  end.

(** [regex.option]: the key, the assign character, [\s*], and as the value
    every character up to the first line terminator. *)
Definition match_option (line : string) : option (string * string) :=
  match match_key_assign line with
  | Some (key, r) => Some (key, fst (span is_dot (drop_while is_space r)))
  | None => None
  end.

(** [regex.objectBody]: [regex.option] after one blank or more. *)
Definition match_objectBody (line : string) : option (string * string) :=
  let '(ws, r) := span is_space line in
  if nonempty ws then match_option r else None.

Module ComfigParser.

(** [convertValue(val)] *)
Definition convertValue (val : string) : value :=
  let val := trim val in
  if is_int_literal val then VNum (parseInt val)
  else if is_float_literal val then VNum (parseFloat val)
  else if String.eqb "true" val then VBool true
  else if String.eqb "false" val then VBool false
  else if String.eqb "null" val || String.eqb "undefined" val
          || String.eqb EmptyString val then VNull
  else VStr val.

(** The variables [last], [key] and [buffer] of [parse]: [key] and
    [buffer] are read only while [last] names the block they were opened
    for, so they travel with it. *)
Inductive last :=
| LNone                                              (* undefined, null *)
| LBlank
| LMultistring (key : string) (buffer : list string)
| LArray (key : string) (buffer : list value)
| LObject (key : string) (buffer : object).

Record parser := Parser {
  section_ : section;        (* this.section *)
  sectionId : nat;           (* this.sectionId *)
  tree_ : list section;      (* this.tree *)
  object_ : object;          (* this.object *)
  index_ : gmap string nat   (* this.index *)
}.

(** The state of a fresh parser once [parse] has called [resetSection]. *)
Definition init : parser :=
  {| section_ := {| comment := EmptyString; data := [] |}; sectionId := 0;
     tree_ := []; object_ := []; index_ := ∅ |}.

(** [flush()], with the [resetSection()] it ends in. *)
Definition flush (p : parser) : parser :=
  if String.eqb (comment (section_ p)) EmptyString
     && (length (obj_keys (data (section_ p))) =? 0)
  then p
  else
    {| section_ := {| comment := EmptyString; data := [] |};
       sectionId := S (sectionId p);
       tree_ := tree_ p ++ [section_ p];
       object_ := object_ p; index_ := index_ p |}.

(** [addComment(comment)] *)
Definition addComment (p : parser) (c : string) : parser :=
  {| section_ := {| comment := comment (section_ p) +:+ c +:+ nl;
                    data := data (section_ p) |};
     sectionId := sectionId p; tree_ := tree_ p;
     object_ := object_ p; index_ := index_ p |}.

(** [addKey(key, value)] *)
Definition addKey (p : parser) (key : string) (v : value) : parser :=
  {| section_ := with_data (section_ p) (obj_set key v (data (section_ p)));
     sectionId := sectionId p; tree_ := tree_ p;
     object_ := obj_set key v (object_ p);
     index_ := <[key := sectionId p]> (index_ p) |}.

(** The body of the loop over the lines of [parse]. *)
Definition step (st : parser * last) (line : string) : result (parser * last) :=
  let '(p, l) := st in
  let lean := trim line in
  if String.eqb lean EmptyString then
    match l with
    | LMultistring key buffer => Ok (p, LMultistring key (buffer ++ [line]))
    | LBlank => Ok (p, LBlank)
    | _ => Ok (flush p, LBlank)
    end
  else
    match match_multistring line, l with
    | Some key, _ => Ok (p, LMultistring key [])
    | None, LMultistring key buffer =>
        if negb (String.eqb lean triple_quote)
        then Ok (p, LMultistring key (buffer ++ [line]))
        else Ok (addKey p key (VStr (join nl buffer)), LNone)
    | None, _ =>
        match match_array line, l with
        | Some key, _ => Ok (p, LArray key [])
        | None, LArray key buffer =>
            if negb (String.eqb lean "]")
            then Ok (p, LArray key (buffer ++ [convertValue line]))
            else Ok (addKey p key (VArr buffer), LNone)
        | None, _ =>
            match match_object line, l with
            | Some key, _ => Ok (p, LObject key [])
            | None, LObject key buffer =>
                if negb (String.eqb lean "}") then
                  match match_objectBody line with
                  | Some (skey, v) =>
                      Ok (p, LObject key (obj_set skey (convertValue v) buffer))
                  | None => Throw "TypeError"
                  end
                else Ok (addKey p key (VObj buffer), LNone)
            | None, _ =>
                match match_option line with
                | Some (key, v) => Ok (addKey p key (convertValue v), LNone)
                | None => Ok (addComment p line, LNone)
                end
            end
        end
    end.

Fixpoint steps (st : parser * last) (lines : list string) : result (parser * last) :=
  match lines with
  | [] => Ok st
  | line :: lines' => let* st' := step st line in steps st' lines'
  end.

(** [new ComfigParser(text)]: the constructor and [parse()]. *)
Definition parse (text : string) : result parser :=
  let text := remove_first CR text in
  let* st := steps (init, LNone) (split LF text) in
  Ok (flush (fst st)).

End ComfigParser.

(** [import(comfigText)] *)
Definition import (st : store) (comfigText : string) : result store :=
  let* p := ComfigParser.parse comfigText in
  Ok {| opts := opts st; tree := ComfigParser.tree_ p; index := ComfigParser.index_ p |}.

(** [serialize()] of the store *)
Definition serialize (st : store) : result string :=
  ComfigSerializer.serialize (tree st) (opts st).

(** * Verification *)

(** ** The index invariant of the data model *)

(** Every key of [Tree[i].data] is indexed at [i], and the index holds no
    entry for a key that no section has at that position. *)
Definition consistent (st : store) : Prop :=
  (∀ i s k, tree st !! i = Some s → k ∈ obj_keys (data s) → index st !! k = Some i)
  ∧ (∀ k i, index st !! k = Some i →
       ∃ s, tree st !! i = Some s ∧ k ∈ obj_keys (data s)).

(** A plain object has each of its keys once. *)
Definition well_formed (st : store) : Prop :=
  Forall (fun s => NoDup (obj_keys (data s))) (tree st).

(** ** Sample stores *)

Definition sample_opts : options :=
  {| opt_comment := "#"; opt_assign := ": "; opt_indent := String TAB EmptyString |}.

(** Two sections: [a] and [b] in the first, [c] in the second. *)
Definition sample_tree : list section :=
  [ {| comment := EmptyString; data := [("a", VInt 1); ("b", VInt 2)] |};
    {| comment := EmptyString; data := [("c", VInt 3)] |} ].

Definition sample_store : store :=
  {| opts := sample_opts; tree := sample_tree;
     index := <["a" := 0]> (<["b" := 0]> (<["c" := 1]> ∅)) |}.

(** ** Association lists *)

Lemma obj_get_Some_elem k v (o : object) :
  obj_get k o = Some v → k ∈ obj_keys o.
Proof.
  induction o as [|[k' v'] o IH]; simpl; [done|].
  destruct (String.eqb_spec k' k) as [->|Hne]; intros H.
  - apply list_elem_of_here.
  - apply list_elem_of_further, IH, H.
Qed.

Lemma obj_get_None k (o : object) :
  obj_get k o = None ↔ k ∉ obj_keys o.
Proof.
  induction o as [|[k' v'] o IH]; simpl.
  - split; [intros _; apply not_elem_of_nil | done].
  - destruct (String.eqb_spec k' k) as [->|Hne].
    + split; [done | intros H; destruct H; apply list_elem_of_here].
    + rewrite IH, not_elem_of_cons. naive_solver.
Qed.

Lemma obj_has_true k (o : object) : obj_has k o = true ↔ k ∈ obj_keys o.
Proof.
  unfold obj_has. destruct (obj_get k o) eqn:E.
  - split; [intros _; eapply obj_get_Some_elem, E | done].
  - apply obj_get_None in E. split; [done | intros H; by destruct E].
Qed.

Lemma obj_keys_replace k v (o : object) :
  obj_keys (obj_replace k v o) = obj_keys o.
Proof.
  induction o as [|[k' v'] o IH]; simpl; [done|].
  destruct (String.eqb k' k); simpl; [done | by rewrite IH].
Qed.

Lemma obj_get_replace_eq k v (o : object) :
  k ∈ obj_keys o → obj_get k (obj_replace k v o) = Some v.
Proof.
  induction o as [|[k' v'] o IH]; simpl.
  - intros H. by apply not_elem_of_nil in H.
  - intros H. destruct (String.eqb_spec k' k) as [->|Hne]; simpl.
    + by rewrite String.eqb_refl.
    + apply String.eqb_neq in Hne as Hb. rewrite Hb. apply IH.
      apply elem_of_cons in H as [->|H]; [done | exact H].
Qed.

Lemma obj_get_replace_ne k k' v (o : object) :
  k ≠ k' → obj_get k' (obj_replace k v o) = obj_get k' o.
Proof.
  intros Hne. induction o as [|[k0 v0] o IH]; simpl; [done|].
  destruct (String.eqb_spec k0 k) as [->|Hne0]; simpl.
  - apply String.eqb_neq in Hne. by rewrite Hne.
  - destruct (String.eqb k0 k'); [done | exact IH].
Qed.

Lemma obj_keys_insert_index n k v (o : object) :
  obj_keys (obj_insert_index n k v o) ≡ₚ k :: obj_keys o.
Proof.
  induction o as [|[k' v'] o IH]; simpl; [done|].
  destruct (array_index k'); [destruct (n <? n0)%N|]; simpl; try done.
  rewrite IH. apply Permutation_swap.
Qed.

(** The keys after [o[k] = v]: the same keys, or one more. *)
Lemma obj_keys_set k v (o : object) :
  obj_keys (obj_set k v o) ≡ₚ
    if obj_has k o then obj_keys o else k :: obj_keys o.
Proof.
  unfold obj_set. destruct (obj_has k o).
  - by rewrite obj_keys_replace.
  - destruct (array_index k).
    + apply obj_keys_insert_index.
    + unfold obj_keys. rewrite map_app. simpl.
      by rewrite Permutation_app_comm.
Qed.

Lemma elem_of_obj_keys_set k k' v (o : object) :
  k' ∈ obj_keys (obj_set k v o) ↔ k' = k ∨ k' ∈ obj_keys o.
Proof.
  rewrite obj_keys_set. destruct (obj_has k o) eqn:E.
  - apply obj_has_true in E. naive_solver.
  - apply elem_of_cons.
Qed.


Lemma obj_keys_delete_subseteq k (o : object) :
  obj_keys (obj_delete k o) ⊆ obj_keys o.
Proof.
  induction o as [|[k' v'] o IH]; simpl; [done|].
  destruct (String.eqb k' k); simpl.
  - intros x Hx. by apply list_elem_of_further.
  - intros x [->|H]%elem_of_cons; [apply list_elem_of_here|].
    apply list_elem_of_further, IH, H.
Qed.


Lemma obj_keys_delete_NoDup k (o : object) :
  NoDup (obj_keys o) → NoDup (obj_keys (obj_delete k o)).
Proof.
  induction o as [|[k' v'] o IH]; simpl; [done|].
  intros [Hk Ho]%NoDup_cons. destruct (String.eqb k' k); [done|].
  simpl. apply NoDup_cons. split; [|by apply IH].
  intros H. apply Hk. eapply obj_keys_delete_subseteq, H.
Qed.

(** ** Deciding the invariant on a given store *)

Fixpoint indexed_from (ix : gmap string nat) (i : nat) (t : list section) : bool :=
  match t with
  | [] => true
  | s :: t' =>
      forallb (fun k => bool_decide (ix !! k = Some i)) (obj_keys (data s))
      && indexed_from ix (S i) t'
  end.

Definition owned (t : list section) (e : string * nat) : bool :=
  match t !! e.2 with
  | Some s => bool_decide (e.1 ∈ obj_keys (data s))
  | None => false
  end.

Definition consistentb (st : store) : bool :=
  indexed_from (index st) 0 (tree st)
  && forallb (owned (tree st)) (map_to_list (index st)).

Lemma indexed_from_sound ix i t :
  indexed_from ix i t = true →
  ∀ j s k, t !! j = Some s → k ∈ obj_keys (data s) → ix !! k = Some (i + j).
Proof.
  revert i. induction t as [|s0 t IH]; intros i H j s k Hj Hk; [done|].
  simpl in H. apply andb_true_iff in H as [H1 H2].
  destruct j as [|j]; simpl in Hj.
  - injection Hj as ->. rewrite forallb_forall in H1.
    apply list_elem_of_In, H1 in Hk. apply bool_decide_eq_true in Hk.
    by rewrite Nat.add_0_r.
  - rewrite (IH _ H2 j s k Hj Hk). f_equal. lia.
Qed.

Lemma consistentb_sound st : consistentb st = true → consistent st.
Proof.
  unfold consistentb. intros [H1 H2]%andb_true_iff. split.
  - intros i s k Hi Hk. apply (indexed_from_sound _ _ _ H1 i s k Hi Hk).
  - intros k i Hk. rewrite forallb_forall in H2.
    apply elem_of_map_to_list, list_elem_of_In, H2 in Hk.
    unfold owned in Hk. simpl in Hk. destruct (tree st !! i) as [s|]; [|done].
    exists s. split; [done|]. by apply bool_decide_eq_true in Hk.
Qed.

Lemma sample_store_consistent : consistent sample_store.
Proof. apply consistentb_sound. vm_compute. reflexivity. Qed.

(** The sample store is what three calls build from the empty store. *)
Lemma sample_store_reachable :
  ∃ st1 st2,
    Comfig.set (Comfig.empty sample_opts) "a" (VInt 1) (Comfig.SetOpts true None)
      = Ok (st1, RInt 0)
    ∧ Comfig.addSectionKey st1 0 "b" (VInt 2) = (st2, RUndefined)
    ∧ Comfig.set st2 "c" (VInt 3) (Comfig.SetOpts true None)
      = Ok (sample_store, RInt 1).
Proof. eexists _, _. repeat split; vm_compute; reflexivity. Qed.

(** ** [reorderSection] *)

(** What [_commonArrays] tests when the first array has no repetition: the
    second array has no repetition either and each of its items occurs in
    the first.  It does not ask for every item of the first. *)
Lemma _commonArrays_true (arr1 arr2 : list string) :
  NoDup arr1 →
  Comfig._commonArrays arr1 arr2 = true ↔ NoDup arr2 ∧ arr2 ⊆ arr1.
Proof.
  intros Hnd. unfold Comfig._commonArrays. rewrite Nat.eqb_eq.
  set (f := filter (λ item, item ∈ arr2) arr1).
  assert (Hf : NoDup f) by by apply NoDup_filter.
  assert (Hsub : f ⊆+ arr2).
  { apply NoDup_submseteq; [done|]. intros x Hx.
    by apply list_elem_of_filter in Hx as [? _]. }
  split.
  - intros Hlen.
    assert (Hp : f ≡ₚ arr2).
    { apply submseteq_length_Permutation; [done | lia]. }
    split; [by rewrite <- Hp|].
    intros x Hx. rewrite <- Hp in Hx.
    by apply list_elem_of_filter in Hx as [_ ?].
  - intros [Hnd2 Hin].
    assert (Hsub2 : arr2 ⊆+ f).
    { apply NoDup_submseteq; [done|]. intros x Hx.
      apply list_elem_of_filter. split; [done | by apply Hin]. }
    apply Nat.le_antisymm; by apply submseteq_length.
Qed.

(** C3 (the code departs from the claim).  On the section [{a: 1, b: 2}]
    the call [reorderSection(0, ['a'])], whose array is a strict subset of
    the section's keys, returns no error: it returns [undefined] and leaves
    the section with the key [a] alone. *)
Theorem reorderSection_accepts_strict_subset :
  Comfig.reorderSection sample_store 0 ["a"] =
    (with_tree sample_store
       [ {| comment := EmptyString; data := [("a", VInt 1)] |};
         {| comment := EmptyString; data := [("c", VInt 3)] |} ],
     RUndefined).
Proof. vm_compute. reflexivity. Qed.

(** The general form: [reorderSection] returns an error exactly when the
    position is invalid or [newOrder] repeats an item or names a key the
    section does not have. *)
Lemma reorderSection_error_iff st idx newOrder :
  well_formed st →
  (∃ msg, (Comfig.reorderSection st idx newOrder).2 = RError msg) ↔
  match tree st !! idx with
  | None => True
  | Some s => ¬ (NoDup newOrder ∧ newOrder ⊆ obj_keys (data s))
  end.
Proof.
  intros Hwf. unfold Comfig.reorderSection.
  destruct (tree st !! idx) as [s|] eqn:Hs; [|naive_solver].
  assert (Hnd : NoDup (obj_keys (data s))).
  { unfold well_formed in Hwf. rewrite Forall_forall in Hwf.
    apply Hwf. eapply list_elem_of_lookup_2, Hs. }
  pose proof (_commonArrays_true _ newOrder Hnd) as Hc.
  destruct (Comfig._commonArrays (obj_keys (data s)) newOrder); simpl.
  - split; [intros [msg Hm]; done | intros H; destruct H; by apply Hc].
  - split; [|eauto]. intros _ H. apply Hc in H. done.
Qed.

(** ** [addSectionKey] *)

(** C4 (the code departs from the claim).  The key [a] is indexed, owned by
    the section at position 0; [addSectionKey(1, 'a', null)] returns no
    error, adds [a] to the section at position 1 and points the index of
    [a] there. *)
Theorem addSectionKey_accepts_key_of_section_0 :
  index sample_store !! "a" = Some 0
  ∧ Comfig.addSectionKey sample_store 1 "a" VNull =
      ({| opts := sample_opts;
          tree := [ {| comment := EmptyString; data := [("a", VInt 1); ("b", VInt 2)] |};
                    {| comment := EmptyString; data := [("c", VInt 3); ("a", VNull)] |} ];
          index := <["a" := 1]> (<["b" := 0]> (<["c" := 1]> ∅)) |},
       RUndefined).
Proof. split; vm_compute; reflexivity. Qed.

(** The general form: the error is returned exactly when the position is
    invalid or the key is indexed at a position other than 0. *)
Lemma addSectionKey_error_iff st idx key v :
  (∃ msg, (Comfig.addSectionKey st idx key v).2 = RError msg) ↔
  tree st !! idx = None ∨ ∃ n, index st !! key = Some (S n).
Proof.
  unfold Comfig.addSectionKey.
  destruct (tree st !! idx) as [s|]; [|naive_solver].
  destruct (index st !! key) as [[|n]|]; simpl; naive_solver.
Qed.

(** C1 (the code departs from the claim).  The sample store satisfies the
    invariant.  After [addSectionKey(1, 'a', null)] the key [a] is in the
    data of the section at position 0 and the index maps it to 1: the
    invariant is lost. *)
Theorem addSectionKey_breaks_index_invariant :
  consistent sample_store
  ∧ ∃ st', Comfig.addSectionKey sample_store 1 "a" VNull = (st', RUndefined)
      ∧ (∃ s, tree st' !! 0 = Some s ∧ "a" ∈ obj_keys (data s))
      ∧ index st' !! "a" = Some 1
      ∧ ¬ consistent st'.
Proof.
  split; [exact sample_store_consistent|].
  eexists. split; [vm_compute; reflexivity|].
  split; [eexists; split; [reflexivity | apply list_elem_of_here]|].
  split; [vm_compute; reflexivity|].
  intros [H _]. specialize (H 0 _ "a" eq_refl (list_elem_of_here _ _)).
  vm_compute in H. discriminate.
Qed.

(** The second way the invariant is lost: after [reorderSection(0, ['a'])]
    the index keeps its entry for [b], a key no section has any more. *)
Lemma reorderSection_leaves_stale_entry :
  ∃ st', Comfig.reorderSection sample_store 0 ["a"] = (st', RUndefined)
    ∧ index st' !! "b" = Some 0
    ∧ (∀ s, s ∈ tree st' → "b" ∉ obj_keys (data s)).
Proof.
  eexists. split; [vm_compute; reflexivity|].
  split; [vm_compute; reflexivity|].
  intros s Hs. simpl in Hs.
  apply elem_of_cons in Hs as [->|Hs]; simpl.
  - by intros [?|[]%not_elem_of_nil]%elem_of_cons.
  - apply list_elem_of_singleton in Hs as ->. simpl.
    by intros [?|[]%not_elem_of_nil]%elem_of_cons.
Qed.

(** ** [sync] and the marker [$] *)

(** C6 (the code departs from the claim).  A store holds the key [$a],
    created by [set('$a', 1, {create: true})].  In the [update] mode,
    [sync({'$a': 2}, {update: true})] overwrites its value with 2: the loop
    of that mode runs over the keys of [obj], not over the filtered
    [objKeys]. *)
Theorem sync_update_overwrites_marked_key :
  ∃ st st',
    Comfig.set (Comfig.empty sample_opts) "$a" (VInt 1) (Comfig.SetOpts true None)
      = Ok (st, RInt 0)
    ∧ Comfig.get st "$a" VUndefined = Ok (VInt 1)
    ∧ Comfig.sync st (VObj [("$a", VInt 2)]) (Comfig.SyncOpts true false false)
      = Ok (st', RUndefined)
    ∧ Comfig.get st' "$a" VUndefined = Ok (VInt 2).
Proof. eexists _, _. repeat split; vm_compute; reflexivity. Qed.

(** ** Compound values under a sub-key *)

(** A value that an array or a flat object may not hold: an array, an
    object, or a string with a line break. *)
Definition compound (v : value) : bool :=
  match v with
  | VArr _ | VObj _ => true
  | VStr s => includes LF s
  | _ => false
  end.

(** The values held one level under [v]. *)
Definition members (v : value) : list value :=
  match v with
  | VArr l => l
  | VObj o => map snd o
  | _ => []
  end.

(** Some array element or flat-object value of the tree is compound. *)
Definition nested_compound (t : list section) : Prop :=
  ∃ s key v x, s ∈ t ∧ (key, v) ∈ data s ∧ x ∈ members v ∧ compound x = true.

Lemma _validateSubkeyValue_compound v :
  Comfig._validateSubkeyValue v = compound v.
Proof. by destruct v. Qed.

(** C8.  For a path [key.subkey] and a value that is an object, an array
    or a string with a line break, [set] returns an error object and the
    store is the one it was given: the error of the validation when the key
    exists or creation is allowed, the missing-option error otherwise. *)
Theorem set_subkey_rejects_compound st dotKey key subkey v o :
  split_path dotKey = (key, Some subkey) →
  subkey ≠ EmptyString →
  compound v = true →
  Comfig.set st dotKey v o =
    Ok (st, if bool_decide (index st !! key = None) && negb (Comfig.create o)
            then RError "config option does not exist"
            else Comfig.invalid_subkey_error).
Proof.
  intros Hp Hs Hv. unfold Comfig.set. rewrite Hp.
  assert (Hg : given (Some subkey) = Some subkey).
  { simpl. by destruct subkey. }
  rewrite Hg, _validateSubkeyValue_compound, Hv.
  destruct (index st !! key) as [idx|]; simpl; [done|].
  by destruct (Comfig.create o).
Qed.

Lemma set_subkey_rejects_compound_witness :
  Comfig.set sample_store "a.x" (VStr ("one" +:+ nl +:+ "two")) (Comfig.SetOpts false None)
  = Ok (sample_store, Comfig.invalid_subkey_error)
  ∧ Comfig.set sample_store "z.x" (VObj []) (Comfig.SetOpts true None)
  = Ok (sample_store, Comfig.invalid_subkey_error).
Proof.
  split.
  - apply (set_subkey_rejects_compound sample_store "a.x" "a" "x"); [reflexivity | discriminate | reflexivity].
  - apply (set_subkey_rejects_compound sample_store "z.x" "z" "x"); [reflexivity | discriminate | reflexivity].
Defined.

(** ** [hasKey] *)

(** C10.  [hasKey] is the truth value of what [get] returns without a
    default; so for a key of the store whose value is [false], [0], [null]
    or the empty string it answers [false]. *)
Theorem hasKey_is_truthiness_of_get st :
  (∀ dotKey,
     Comfig.hasKey st dotKey =
       match Comfig.get st dotKey VUndefined with
       | Ok v => Ok (truthy v)
       | Throw e => Throw e
       end)
  ∧ (∀ key idx s v,
       split_path key = (key, None) →
       index st !! key = Some idx →
       tree st !! idx = Some s →
       obj_get key (data s) = Some v →
       v ∈ [VBool false; VInt 0; VNull; VStr EmptyString] →
       Comfig.hasKey st key = Ok false).
Proof.
  split; [done|].
  intros key idx s v Hp Hi Hs Hv Hfalsy.
  unfold Comfig.hasKey, Comfig.get. rewrite Hp, Hi, Hs. simpl.
  unfold prop. rewrite Hv. simpl.
  repeat (apply elem_of_cons in Hfalsy as [->|Hfalsy]; [done|]).
  by apply not_elem_of_nil in Hfalsy.
Qed.

Lemma hasKey_is_truthiness_of_get_witness :
  Comfig.hasKey
    {| opts := sample_opts;
       tree := [ {| comment := EmptyString; data := [("n", VInt 0)] |} ];
       index := <["n" := 0]> ∅ |} "n" = Ok false.
Proof.
  eapply (proj2 (hasKey_is_truthiness_of_get _) "n" 0 _ (VInt 0)).
  all: try reflexivity.
  apply list_elem_of_further, list_elem_of_here.
Defined.

(** ** The serializer raises on compound members *)

Section Serializer_raises.

Variables assign indent : string.

Lemma throwOnInvalidSubkey_compound v :
  ComfigSerializer.throwOnInvalidSubkey v =
    if compound v then Throw ComfigSerializer.invalid_value_error else Ok tt.
Proof. by destruct v. Qed.

Lemma array_body_result l :
  if existsb compound l
  then ComfigSerializer.array_body indent l = Throw ComfigSerializer.invalid_value_error
  else ComfigSerializer.array_body indent l = Ok (map (λ v, indent +:+ to_string v) l).
Proof.
  induction l as [|v l IH]; simpl; [done|].
  rewrite throwOnInvalidSubkey_compound.
  destruct (compound v); simpl; [done|].
  destruct (existsb compound l); by rewrite IH.
Qed.

Lemma object_body_result (o : object) :
  if existsb compound (map snd o)
  then ComfigSerializer.object_body assign indent o
       = Throw ComfigSerializer.invalid_value_error
  else ComfigSerializer.object_body assign indent o
       = Ok (map (λ e, indent +:+ e.1 +:+ assign +:+ to_string e.2) o).
Proof.
  induction o as [|[k v] o IH]; simpl; [done|].
  rewrite throwOnInvalidSubkey_compound.
  destruct (compound v); simpl; [done|].
  destruct (existsb compound (map snd o)); by rewrite IH.
Qed.

Lemma render_result key v :
  if existsb compound (members v)
  then ComfigSerializer.render assign indent key v
       = Throw ComfigSerializer.invalid_value_error
  else ∃ text, ComfigSerializer.render assign indent key v = Ok text.
Proof.
  destruct v as [| |b|n|s|l|o]; simpl; eauto.
  - destruct (includes LF s); eauto.
  - pose proof (array_body_result l) as H.
    destruct (existsb compound l); rewrite H; simpl; eauto.
  - pose proof (object_body_result o) as H.
    destruct (existsb compound (map snd o)); rewrite H; simpl; eauto.
Qed.

Lemma render_data_result (d : object) :
  if existsb (λ e, existsb compound (members e.2)) d
  then ComfigSerializer.render_data assign indent d
       = Throw ComfigSerializer.invalid_value_error
  else ∃ lines, ComfigSerializer.render_data assign indent d = Ok lines.
Proof.
  induction d as [|[k v] d IH]; simpl; [eauto|].
  pose proof (render_result k v) as H.
  destruct (existsb compound (members v)); simpl.
  - by rewrite H.
  - destruct H as [x ->]. simpl.
    destruct (existsb _ d); [by rewrite IH|].
    destruct IH as [xs ->]. simpl. eauto.
Qed.

Definition nested_compoundb (t : list section) : bool :=
  existsb (λ s, existsb (λ e, existsb compound (members e.2)) (data s)) t.

Lemma render_tree_result t :
  if nested_compoundb t
  then ComfigSerializer.render_tree assign indent t
       = Throw ComfigSerializer.invalid_value_error
  else ∃ lines, ComfigSerializer.render_tree assign indent t = Ok lines.
Proof.
  induction t as [|s t IH]; simpl; [eauto|].
  pose proof (render_data_result (data s)) as H.
  destruct (existsb _ (data s)); simpl.
  - by rewrite H.
  - destruct H as [xs ->]. simpl.
    fold (nested_compoundb t). destruct (nested_compoundb t); [by rewrite IH|].
    destruct IH as [r ->]. simpl. eauto.
Qed.

Lemma nested_compoundb_true t :
  nested_compoundb t = true ↔ nested_compound t.
Proof.
  unfold nested_compoundb, nested_compound. rewrite existsb_exists. split.
  - intros (s & Hs & H). apply existsb_exists in H as ([k v] & Hd & H).
    apply existsb_exists in H as (x & Hx & Hc). simpl in Hx.
    exists s, k, v, x. by rewrite !list_elem_of_In.
  - intros (s & k & v & x & Hs & Hd & Hx & Hc).
    exists s. split; [by apply list_elem_of_In|].
    apply existsb_exists. exists (k, v). split; [by apply list_elem_of_In|].
    apply existsb_exists. exists x. split; [by apply list_elem_of_In | done].
Qed.

End Serializer_raises.

(** C7.  [serialize] raises when some array element or flat-object value of
    the tree is an array, an object or a string with a line break, and
    returns a text when there is none; a string with a line break stored as
    the value of a top-level key is serialized. *)
Theorem serialize_raises_on_compound_member t o :
  (nested_compound t →
     ComfigSerializer.serialize t o = Throw ComfigSerializer.invalid_value_error)
  ∧ (¬ nested_compound t → ∃ text, ComfigSerializer.serialize t o = Ok text)
  ∧ (∀ c key s,
       includes LF s = true →
       ∃ text,
         ComfigSerializer.serialize [ {| comment := c; data := [(key, VStr s)] |} ] o
         = Ok text).
Proof.
  unfold ComfigSerializer.serialize.
  pose proof (render_tree_result (opt_assign o) (opt_indent o) t) as H.
  split; [|split].
  - intros Hn. apply nested_compoundb_true in Hn. rewrite Hn in H. by rewrite H.
  - intros Hn. destruct (nested_compoundb t) eqn:E.
    + by apply nested_compoundb_true in E.
    + destruct H as [lines ->]. simpl. eauto.
  - intros c key s Hs. simpl. rewrite Hs. simpl. eauto.
Qed.

(** ** The keys of a tree and the rebuilt index *)

Definition all_keys (t : list section) : list string :=
  t ≫= (λ s, obj_keys (data s)).

Lemma all_keys_app t1 t2 : all_keys (t1 ++ t2) = all_keys t1 ++ all_keys t2.
Proof. apply bind_app. Qed.

Lemma all_keys_cons s t : all_keys (s :: t) = obj_keys (data s) ++ all_keys t.
Proof. done. Qed.

Lemma getKeys_all_keys st : Comfig.getKeys st = all_keys (tree st).
Proof.
  unfold Comfig.getKeys.
  assert (H : ∀ t acc,
    foldl (λ keys s, keys ++ obj_keys (data s)) acc t = acc ++ all_keys t).
  { induction t as [|s t IH]; intros acc.
    - simpl. by rewrite app_nil_r.
    - rewrite all_keys_cons, app_assoc. apply IH. }
  by rewrite H.
Qed.

Lemma elem_of_all_keys k t :
  k ∈ all_keys t ↔ ∃ i s, t !! i = Some s ∧ k ∈ obj_keys (data s).
Proof.
  unfold all_keys. rewrite list_elem_of_bind. split.
  - intros (s & Hk & Hs). apply list_elem_of_lookup in Hs as [i Hi]. eauto.
  - intros (i & s & Hi & Hk). exists s. split; [done|].
    eapply list_elem_of_lookup_2, Hi.
Qed.

Lemma foldl_insert_lookup (ks : list string) (i : nat) (ix : gmap string nat) k :
  foldl (λ ix key, <[key := i]> ix) ix ks !! k
  = if bool_decide (k ∈ ks) then Some i else ix !! k.
Proof.
  revert ix. induction ks as [|k0 ks IH]; intros ix; simpl; [done|].
  rewrite IH. destruct (decide (k = k0)) as [->|Hne].
  - rewrite lookup_insert_eq. rewrite (bool_decide_eq_true_2 (k0 ∈ k0 :: ks)).
    + by destruct (bool_decide (k0 ∈ ks)).
    + apply list_elem_of_here.
  - rewrite lookup_insert_ne by done.
    destruct (decide (k ∈ ks)) as [Hin|Hnin].
    + rewrite !bool_decide_eq_true_2; [done | by apply list_elem_of_further | done].
    + rewrite !bool_decide_eq_false_2; [done | | done].
      rewrite not_elem_of_cons. done.
Qed.

Lemma rebuild_from_notin i t ix k :
  k ∉ all_keys t → Comfig.rebuild_from i t ix !! k = ix !! k.
Proof.
  revert i ix. induction t as [|s t IH]; intros i ix Hk; simpl; [done|].
  rewrite all_keys_cons, not_elem_of_app in Hk. destruct Hk as [Hs Ht].
  rewrite IH by done. rewrite foldl_insert_lookup.
  by rewrite bool_decide_eq_false_2.
Qed.

Lemma rebuild_from_in i t ix j s k :
  NoDup (all_keys t) → t !! j = Some s → k ∈ obj_keys (data s) →
  Comfig.rebuild_from i t ix !! k = Some (i + j).
Proof.
  revert i ix j. induction t as [|s0 t IH]; intros i ix j Hnd Hj Hk; [done|].
  rewrite all_keys_cons in Hnd. apply NoDup_app in Hnd as (Hnd0 & Hdisj & Hndt).
  destruct j as [|j]; simpl in *.
  - injection Hj as ->. rewrite rebuild_from_notin by (by apply Hdisj).
    rewrite foldl_insert_lookup, bool_decide_eq_true_2 by done.
    by rewrite Nat.add_0_r.
  - rewrite (IH (S i) _ j Hndt Hj Hk). f_equal. lia.
Qed.

Lemma rebuild_from_Some i t ix k n :
  Comfig.rebuild_from i t ix !! k = Some n →
  (∃ j s, n = i + j ∧ t !! j = Some s ∧ k ∈ obj_keys (data s)) ∨ ix !! k = Some n.
Proof.
  revert i ix. induction t as [|s0 t IH]; intros i ix H; simpl in *; [by right|].
  apply IH in H as [(j & s & -> & Hj & Hk)|H].
  - left. exists (S j), s. split; [lia | done].
  - rewrite foldl_insert_lookup in H.
    destruct (decide (k ∈ obj_keys (data s0))) as [Hin|Hnin].
    + rewrite bool_decide_eq_true_2 in H by done. injection H as <-.
      left. exists 0, s0. split; [lia | done].
    + rewrite bool_decide_eq_false_2 in H by done. by right.
Qed.

(** A rebuilt index satisfies the invariant when no key occurs twice in the
    tree. *)
Lemma _rebuildIndex_consistent st :
  NoDup (all_keys (tree st)) → consistent (Comfig._rebuildIndex st).
Proof.
  intros Hnd. split; simpl.
  - intros i s k Hi Hk. by rewrite (rebuild_from_in 0 _ _ i s k Hnd Hi Hk).
  - intros k i H. apply rebuild_from_Some in H as [(j & s & -> & Hj & Hk)|H].
    + eauto.
    + by rewrite lookup_empty in H.
Qed.


(** ** [delete] of a top-level key *)

#[global] Instance well_formed_dec st : Decision (well_formed st).
Proof. unfold well_formed. apply _. Defined.






(** ** [sync] in the [mirror] mode *)

(** ** Sections at a position *)

(** A section without keys. *)
Definition keyless (s : section) : Prop := obj_keys (data s) = [].

#[global] Instance keyless_dec s : Decision (keyless s).
Proof. unfold keyless. apply _. Defined.

Lemma lookup_middle (t : list section) idx s :
  t !! idx = Some s →
  ∃ t1 t2, t = t1 ++ s :: t2 ∧ length t1 = idx.
Proof.
  intros H. exists (take idx t), (drop (S idx) t). split.
  - by rewrite take_drop_middle.
  - apply length_take_le. apply lookup_lt_Some in H. lia.
Qed.

Lemma insert_middle (t1 t2 : list section) s s' :
  <[length t1 := s']> (t1 ++ s :: t2) = t1 ++ s' :: t2.
Proof.
  rewrite <- (Nat.add_0_r (length t1)). by rewrite insert_app_r.
Qed.

Lemma splice_out_middle (t1 t2 : list section) s :
  splice_out (length t1) (t1 ++ s :: t2) = t1 ++ t2.
Proof.
  unfold splice_out. rewrite take_app_length.
  rewrite drop_app_ge by lia.
  replace (S (length t1) - length t1) with 1 by lia. done.
Qed.

Lemma lookup_middle_Some (t1 t2 : list section) s j s0 :
  (t1 ++ s :: t2) !! j = Some s0 ↔
  (j < length t1 ∧ t1 !! j = Some s0)
  ∨ (j = length t1 ∧ s0 = s)
  ∨ (length t1 < j ∧ t2 !! (j - S (length t1)) = Some s0).
Proof.
  rewrite lookup_app_Some. split.
  - intros [H|[Hlen H]].
    + left. split; [|done]. by apply lookup_lt_Some in H.
    + destruct (j - length t1) as [|n] eqn:E; simpl in H.
      * right; left. split; [lia | congruence].
      * right; right. split; [lia|]. by replace (j - S (length t1)) with n by lia.
  - intros [[Hlt H]|[[-> ->]|[Hlt H]]].
    + by left.
    + right. split; [lia|]. by rewrite Nat.sub_diag.
    + right. split; [lia|].
      replace (j - length t1) with (S (j - S (length t1))) by lia. done.
Qed.

Lemma all_keys_middle t1 s t2 :
  all_keys (t1 ++ s :: t2) = all_keys t1 ++ obj_keys (data s) ++ all_keys t2.
Proof. by rewrite all_keys_app, all_keys_cons. Qed.

Lemma filter_keyless_middle t1 s t2 :
  ¬ keyless s →
  filter keyless (t1 ++ s :: t2) = filter keyless (t1 ++ t2).
Proof.
  intros H. rewrite !filter_app, filter_cons_False by done. done.
Qed.

(** A stored value: the key is in some section, with that value. *)
Definition holds (t : list section) (k : string) (v : value) : Prop :=
  ∃ i s, t !! i = Some s ∧ obj_get k (data s) = Some v.

Lemma holds_middle t1 s t2 k v :
  holds (t1 ++ s :: t2) k v ↔
  holds t1 k v ∨ obj_get k (data s) = Some v ∨ holds t2 k v.
Proof.
  unfold holds. split.
  - intros (i & s0 & Hi & Hv). apply lookup_middle_Some in Hi as [[_ Hi]|[[_ ->]|[_ Hi]]]; eauto 6.
  - intros [(i & s0 & Hi & Hv)|[Hv|(i & s0 & Hi & Hv)]].
    + exists i, s0. split; [|done]. by apply lookup_app_l_Some.
    + exists (length t1), s. split; [|done]. by rewrite list_lookup_middle.
    + exists (length t1 + S i), s0. split; [|done].
      rewrite lookup_app_r by lia. by replace (length t1 + S i - length t1) with (S i) by lia.
Qed.

Lemma holds_app t1 t2 k v :
  holds (t1 ++ t2) k v ↔ holds t1 k v ∨ holds t2 k v.
Proof.
  unfold holds. split.
  - intros (i & s0 & Hi & Hv). apply lookup_app_Some in Hi as [Hi|[_ Hi]]; eauto 6.
  - intros [(i & s0 & Hi & Hv)|(i & s0 & Hi & Hv)].
    + exists i, s0. split; [|done]. by apply lookup_app_l_Some.
    + exists (length t1 + i), s0. split; [|done].
      rewrite lookup_app_r by lia. by replace (length t1 + i - length t1) with i by lia.
Qed.


Lemma obj_set_has k v (o : object) :
  k ∈ obj_keys o → obj_set k v o = obj_replace k v o.
Proof. intros H. unfold obj_set. apply obj_has_true in H. by rewrite H. Qed.

(** The key [k] is in the data of the section at position [i]. *)
Definition has_at (t : list section) (i : nat) (k : string) : Prop :=
  ∃ s, t !! i = Some s ∧ k ∈ obj_keys (data s).

Lemma has_at_all_keys t k : k ∈ all_keys t ↔ ∃ i, has_at t i k.
Proof. rewrite elem_of_all_keys. unfold has_at. naive_solver. Qed.

Lemma has_at_app t1 t2 i k :
  has_at (t1 ++ t2) i k ↔
  (i < length t1 ∧ has_at t1 i k) ∨ (length t1 ≤ i ∧ has_at t2 (i - length t1) k).
Proof.
  unfold has_at. split.
  - intros (s & Hi & Hk). apply lookup_app_Some in Hi as [Hi|[Hlen Hi]].
    + left. split; [by apply lookup_lt_Some in Hi | eauto].
    + right. eauto.
  - intros [[Hlt (s & Hi & Hk)]|[Hle (s & Hi & Hk)]]; exists s; split; try done.
    + by apply lookup_app_l_Some.
    + by rewrite lookup_app_r.
Qed.

Lemma has_at_cons s t i k :
  has_at (s :: t) i k ↔
  (i = 0 ∧ k ∈ obj_keys (data s)) ∨ (0 < i ∧ has_at t (i - 1) k).
Proof.
  unfold has_at. destruct i as [|i]; simpl.
  - split; [intros (s0 & [= <-] & Hk); by left | intros [[_ Hk]|[? _]]; [eauto | lia]].
  - rewrite Nat.sub_0_r. split; [intros H; right; split; [lia | done] | intros [[? _]|[_ H]]; [lia | done]].
Qed.

Lemma has_at_middle t1 s t2 i k :
  has_at (t1 ++ s :: t2) i k ↔
  (i < length t1 ∧ has_at t1 i k)
  ∨ (i = length t1 ∧ k ∈ obj_keys (data s))
  ∨ (length t1 < i ∧ has_at t2 (i - S (length t1)) k).
Proof.
  rewrite has_at_app, has_at_cons.
  replace (i - length t1 - 1) with (i - S (length t1)) by lia.
  split.
  - intros [H|[Hle [[H Hk]|[Hlt H]]]]; [by left | right; left | right; right]; split; try done; lia.
  - intros [H|[[-> Hk]|[Hlt H]]]; [by left | right | right]; (split; [lia|]).
    + left. split; [lia | done].
    + right. split; [lia | done].
Qed.

(** Sections that differ in their values only are at the same places. *)
Lemma has_at_same_keys t1 s s' t2 i k :
  obj_keys (data s') = obj_keys (data s) →
  has_at (t1 ++ s' :: t2) i k ↔ has_at (t1 ++ s :: t2) i k.
Proof. intros H. by rewrite !has_at_middle, H. Qed.

Lemma consistent_has_at st :
  consistent st ↔
  (∀ i k, has_at (tree st) i k → index st !! k = Some i)
  ∧ (∀ k i, index st !! k = Some i → has_at (tree st) i k).
Proof. unfold consistent, has_at. naive_solver. Qed.

Section Merge.

Variables (t0 : list section) (ix : gmap string nat) (e : object).

(** The state of the loop of [_sync__merge] after the keys [seen]: the
    index is still the one of the start. *)
Record merge_inv (seen : list string) (t : list section) : Prop := MergeInv {
  mi_bwd : ∀ k i, ix !! k = Some i → has_at t i k;
  mi_fwd : ∀ i k, has_at t i k → ix !! k = Some i ∨ (ix !! k = None ∧ k ∈ seen);
  mi_nodup : NoDup (all_keys t);
  mi_val : ∀ k, k ∈ seen → holds t k (prop e k);
  mi_keyless : filter keyless t = filter keyless t0
}.

Lemma merge_inv_update seen t st k idx :
  tree st = t → index st = ix →
  merge_inv seen t → ix !! k = Some idx →
  ∃ st', Comfig.assign_at st idx k (prop e k) = Ok st'
    ∧ index st' = ix ∧ opts st' = opts st
    ∧ merge_inv (k :: seen) (tree st').
Proof.
  intros Ht Hix [Hbwd Hfwd Hnd Hval Hkl] Hk.
  destruct (Hbwd k idx Hk) as (s & Hs & Hks).
  unfold Comfig.assign_at. rewrite Ht, Hs.
  eexists. split; [done|]. split; [done|]. split; [done|]. simpl.
  destruct (lookup_middle _ _ _ Hs) as (t1 & t2 & -> & <-).
  rewrite insert_middle, obj_set_has by done.
  set (s' := with_data s (obj_replace k (prop e k) (data s))).
  assert (Hkeys : obj_keys (data s') = obj_keys (data s)) by apply obj_keys_replace.
  constructor.
  - intros k' i Hi. apply (has_at_same_keys _ _ _ _ _ _ Hkeys), Hbwd, Hi.
  - intros i k' Hi. apply (has_at_same_keys _ _ _ _ _ _ Hkeys), Hfwd in Hi.
    destruct Hi as [Hi|[Hi Hin]]; [by left | right]. split; [done|].
    by apply list_elem_of_further.
  - by rewrite all_keys_middle, Hkeys, <- all_keys_middle.
  - intros k' [->|Hin]%elem_of_cons.
    + apply holds_middle. right; left. simpl. by apply obj_get_replace_eq.
    + destruct (decide (k' = k)) as [->|Hne].
      * apply holds_middle. right; left. simpl. by apply obj_get_replace_eq.
      * apply Hval, holds_middle in Hin. apply holds_middle.
        destruct Hin as [Hin|[Hin|Hin]]; [by left | right; left | by right; right].
        simpl. by rewrite obj_get_replace_ne.
  - rewrite <- Hkl. rewrite !filter_keyless_middle; [done | |].
    + unfold keyless. intros E. rewrite E in Hks. by apply not_elem_of_nil in Hks.
    + unfold keyless. rewrite Hkeys. intros E. rewrite E in Hks.
      by apply not_elem_of_nil in Hks.
Qed.

Lemma merge_inv_push seen t k :
  merge_inv seen t → ix !! k = None → k ∉ seen →
  merge_inv (k :: seen)
    (t ++ [ {| comment := EmptyString; data := [(k, prop e k)] |} ]).
Proof.
  intros [Hbwd Hfwd Hnd Hval Hkl] Hk Hseen.
  constructor.
  - intros k' i Hi. apply has_at_app. left.
    pose proof (Hbwd k' i Hi) as H. split; [|done].
    destruct H as (s & Hs & _). by apply lookup_lt_Some in Hs.
  - intros i k' Hi. apply has_at_app in Hi as [[_ Hi]|[Hle Hi]].
    + apply Hfwd in Hi as [Hi|[Hi Hin]]; [by left | right].
      split; [done | by apply list_elem_of_further].
    + apply has_at_cons in Hi as [[_ Hi]|[_ (s & Hs & _)]]; [|done].
      simpl in Hi. apply list_elem_of_singleton in Hi as ->.
      right. split; [done | apply list_elem_of_here].
  - rewrite all_keys_app. apply NoDup_app. split; [done|]. split.
    + intros k' Hk' Hin. simpl in Hin. apply list_elem_of_singleton in Hin as ->.
      apply has_at_all_keys in Hk' as [i Hi].
      apply Hfwd in Hi as [Hi|[_ Hi]]; congruence.
    + apply NoDup_singleton.
  - intros k' [->|Hin]%elem_of_cons; apply holds_app.
    + right. exists 0, {| comment := EmptyString; data := [(k, prop e k)] |}.
      split; [done|]. simpl. by rewrite String.eqb_refl.
    + left. by apply Hval.
  - rewrite <- Hkl, filter_app. rewrite filter_cons_False; [by rewrite app_nil_r|].
    unfold keyless. simpl. done.
Qed.

Lemma _sync__merge_inv keys : ∀ seen st,
  index st = ix →
  NoDup keys → (∀ k, k ∈ keys → k ∉ seen) →
  merge_inv seen (tree st) →
  ∃ st', Comfig._sync__merge keys e st = Ok st'
    ∧ index st' = ix ∧ opts st' = opts st
    ∧ merge_inv (rev keys ++ seen) (tree st').
Proof.
  induction keys as [|k keys IH]; intros seen st Hix Hnd Hfresh Hinv; simpl.
  - eauto.
  - apply NoDup_cons in Hnd as [Hk Hnd].
    assert (Hfresh' : ∀ k', k' ∈ keys → k' ∉ k :: seen).
    { intros k' Hk' [->|Hin]%elem_of_cons; [done|].
      by apply (Hfresh k'); [apply list_elem_of_further|]. }
    rewrite Hix. destruct (ix !! k) as [idx|] eqn:E.
    + destruct (merge_inv_update seen _ st k idx eq_refl Hix Hinv E)
        as (st1 & -> & Hix1 & Hopts1 & Hinv1). simpl.
      destruct (IH (k :: seen) st1 Hix1 Hnd Hfresh' Hinv1)
        as (st' & -> & Hix' & Hopts' & Hinv').
      eexists. split; [done|]. split; [done|]. split; [congruence|].
      by rewrite <- app_assoc.
    + pose proof (merge_inv_push seen _ k Hinv E
                    (Hfresh k (list_elem_of_here _ _))) as Hinv1.
      destruct (IH (k :: seen) (with_tree st _) Hix Hnd Hfresh' Hinv1)
        as (st' & -> & Hix' & Hopts' & Hinv').
      eexists. split; [done|]. split; [done|]. split; [done|].
      by rewrite <- app_assoc.
Qed.

End Merge.

Section Prune.

Variable keep : list string.





End Prune.

(** A path without a dot names a top-level key. *)
Definition bare (k : string) : Prop := split_path k = (k, None).

#[global] Instance bare_dec k : Decision (bare k).
Proof. unfold bare. apply _. Defined.




(** * The round trip through the serializer and the parser *)

#[local] Arguments String.append : simpl nomatch.

(** ** Strings *)


Lemma app_nil_r_s (s : string) : s +:+ "" = s.
Proof. induction s; simpl; congruence. Qed.

Lemma app_assoc_s (a b c : string) : (a +:+ b) +:+ c = a +:+ (b +:+ c).
Proof. induction a; simpl; congruence. Qed.

Lemma str_all_app p (a b : string) :
  str_all p (a +:+ b) = str_all p a && str_all p b.
Proof. induction a as [|c a IH]; simpl; [done|]. by rewrite IH, andb_assoc. Qed.

Lemma str_all_impl (p q : ascii → bool) (s : string) :
  (∀ c, p c = true → q c = true) → str_all p s = true → str_all q s = true.
Proof.
  intros Hpq. induction s as [|c s IH]; simpl; [done|].
  intros [Hc Hs]%andb_true_iff. by rewrite (Hpq c Hc), IH.
Qed.

Lemma includes_false c (s : string) :
  includes c s = false ↔ str_all (λ a, negb (Ascii.eqb a c)) s = true.
Proof.
  induction s as [|a s IH]; simpl; [done|].
  rewrite orb_false_iff, andb_true_iff, IH, negb_true_iff. done.
Qed.

Lemma includes_app c (a b : string) :
  includes c (a +:+ b) = includes c a || includes c b.
Proof. induction a as [|x a IH]; simpl; [done|]. by rewrite IH, orb_assoc. Qed.

(** *** [span], [drop_while] *)



Lemma drop_while_app p (a b : string) :
  str_all p a = true → drop_while p (a +:+ b) = drop_while p b.
Proof.
  induction a as [|x a IH]; simpl; [done|].
  intros [Hx Ha]%andb_true_iff. by rewrite Hx, IH.
Qed.

Lemma drop_while_head p c (s : string) :
  p c = false → drop_while p (String c s) = String c s.
Proof. intros H. simpl. by rewrite H. Qed.

Lemma drop_while_end_cons p c (s : string) :
  ∃ r, drop_while_end p (String c s) = r
       ∧ (r = EmptyString ∨ ∃ r', r = String c r').
Proof.
  simpl. destruct (drop_while_end p s); [destruct (p c)|]; eauto.
Qed.


(** *** [trim] *)

(** A string that starts with a character that is no blank keeps it. *)
Lemma trim_head c (s : string) :
  is_space c = false → ∃ r, trim (String c s) = String c r.
Proof.
  intros Hc. unfold trim. rewrite drop_while_head by done.
  simpl. destruct (drop_while_end is_space s); [|eauto].
  rewrite Hc. eauto.
Qed.




(** *** [split], [join] and lines *)

(** The text of a list of lines, each closed by a line feed. *)
Fixpoint unlines (ls : list string) : string :=
  match ls with
  | [] => EmptyString
  | l :: ls' => l +:+ String LF (unlines ls')
  end.


Lemma split_nonnil c (s : string) : split c s ≠ [].
Proof.
  destruct s as [|a s]; simpl; [done|].
  destruct (Ascii.eqb a c); [done|]. by destruct (split c s).
Qed.

Lemma split_line (l s : string) :
  includes LF l = false →
  split LF (l +:+ String LF s) = l :: split LF s.
Proof.
  induction l as [|a l IH]; simpl; [done|].
  intros [Ha Hl]%orb_false_iff. rewrite Ha, IH by done. done.
Qed.

Lemma split_unlines (ls : list string) (s : string) :
  Forall (λ l, includes LF l = false) ls →
  split LF (unlines ls +:+ s) = ls ++ split LF s.
Proof.
  induction 1 as [|l ls Hl _ IH]; simpl; [done|].
  rewrite app_assoc_s. simpl. rewrite split_line by done. by rewrite IH.
Qed.



Lemma split_lines_clean c (s : string) :
  Forall (λ l, includes c l = false) (split c s).
Proof.
  induction s as [|a s IH]; simpl.
  - by constructor.
  - destruct (Ascii.eqb a c) eqn:E.
    + by constructor.
    + pose proof (split_nonnil c s) as Hn.
      destruct (split c s) as [|w ws]; [done|].
      apply Forall_cons in IH as [Hw Hws]. constructor; [|done].
      simpl. by rewrite E.
Qed.

(** [join nl ls] closed by a line feed is the text of the lines [ls]; an
    empty [ls] gives one empty line. *)
Lemma join_nl_unlines (ls : list string) :
  join nl ls +:+ nl = unlines (match ls with [] => [EmptyString] | _ => ls end).
Proof.
  induction ls as [|l ls IH]; [done|].
  destruct ls as [|l' ls]; [done|].
  change (join nl (l :: l' :: ls)) with (l +:+ nl +:+ join nl (l' :: ls)).
  rewrite !app_assoc_s, IH. done.
Qed.

Lemma remove_first_absent c (s : string) :
  includes c s = false → remove_first c s = s.
Proof.
  induction s as [|a s IH]; simpl; [done|].
  intros [Ha Hs]%orb_false_iff. by rewrite Ha, IH.
Qed.

Lemma includes_unlines c (ls : list string) :
  c ≠ LF → Forall (λ l, includes c l = false) ls → includes c (unlines ls) = false.
Proof.
  intros Hc. induction 1 as [|l ls Hl _ IH]; [done|].
  change (unlines (l :: ls)) with (l +:+ String LF (unlines ls)).
  rewrite includes_app, Hl.
  change (includes c (String LF (unlines ls)))
    with (Ascii.eqb LF c || includes c (unlines ls)).
  rewrite IH. destruct (Ascii.eqb_spec LF c); [congruence | done].
Qed.


(** ** Character classes *)

(** A blank that ends no line. *)
Definition is_blank (c : ascii) : bool := is_space c && is_dot c.

Ltac by_cases_on_ascii c :=
  destruct c as [[] [] [] [] [] [] [] []]; vm_compute; try done; auto.


Lemma keychar_not_assign c :
  is_keychar c = true → Ascii.eqb c ":" || Ascii.eqb c "=" = false.
Proof. by_cases_on_ascii c. Qed.

Lemma blank_is_space c : is_blank c = true → is_space c = true.
Proof. by intros [? _]%andb_true_iff. Qed.




Lemma dot_no_LF c : is_dot c = true → negb (Ascii.eqb c LF) = true.
Proof. by_cases_on_ascii c. Qed.

Lemma dot_no_CR c : is_dot c = true → negb (Ascii.eqb c CR) = true.
Proof. by_cases_on_ascii c. Qed.

Lemma str_dot_no_LF (s : string) : str_all is_dot s = true → includes LF s = false.
Proof. intros H. apply includes_false. revert H. apply str_all_impl, dot_no_LF. Qed.

Lemma str_dot_no_CR (s : string) : str_all is_dot s = true → includes CR s = false.
Proof. intros H. apply includes_false. revert H. apply str_all_impl, dot_no_CR. Qed.

(** ** Keys and the assign operator *)

(** A key the parser reads: one character or more of [[\w_-]]. *)
Definition valid_key (k : string) : Prop :=
  nonempty k = true ∧ str_all is_keychar k = true.

(** The form the constructor asks of [opts.assign], on one line: blanks,
    [:] or [=], blanks. *)
Definition assign_parts (a ws1 : string) (c : ascii) (ws2 : string) : Prop :=
  a = ws1 +:+ String c ws2
  ∧ str_all is_blank ws1 = true
  ∧ (c = ":"%char ∨ c = "="%char)
  ∧ str_all is_blank ws2 = true.





Section Lines.

Variables (assign ws1 : string) (c : ascii) (ws2 : string).
Hypothesis Hassign : assign_parts assign ws1 c ws2.









Lemma match_key_assign_no_key line :
  match line with
  | EmptyString => True
  | String a _ => is_keychar a = false
  end →
  match_key_assign line = None.
Proof.
  unfold match_key_assign. destruct line as [|a r]; simpl; [done|].
  by intros ->.
Qed.









End Lines.

Lemma no_key_no_match line :
  match_key_assign line = None →
  match_multistring line = None ∧ match_array line = None
  ∧ match_object line = None ∧ match_option line = None.
Proof.
  intros H. unfold match_multistring, match_array, match_object, match_option.
  by rewrite H.
Qed.

(** ** Scalars that read back *)











Lemma digit_not_point c : is_digit c = true → Ascii.eqb c "." = false.
Proof. by_cases_on_ascii c. Qed.












(** ** Keys in enumeration order *)

(** [k1] stays ahead of [k2] when [k2] is assigned after it: [k2] is no
    array index, or both are and [k1] is the smaller. *)
Definition key_before (k1 k2 : string) : Prop :=
  match array_index k2 with
  | Some n2 =>
      match array_index k1 with
      | Some n1 => (n1 < n2)%N
      | None => False
      end
  | None => True
  end.

#[global] Instance key_before_dec k1 k2 : Decision (key_before k1 k2).
Proof.
  unfold key_before. destruct (array_index k2); [destruct (array_index k1)|]; apply _.
Defined.

(** The keys of an object as the engine enumerates them: no key twice,
    array indices first and ascending. *)
Fixpoint js_ordered (ks : list string) : Prop :=
  match ks with
  | [] => True
  | k :: ks' => Forall (λ k2, k ≠ k2 ∧ key_before k k2) ks' ∧ js_ordered ks'
  end.

#[global] Instance js_ordered_dec ks : Decision (js_ordered ks).
Proof. induction ks; simpl; apply _. Defined.

Lemma js_ordered_snoc ks k :
  js_ordered (ks ++ [k]) ↔
  js_ordered ks ∧ Forall (λ k1, k1 ≠ k ∧ key_before k1 k) ks.
Proof.
  induction ks as [|k0 ks IH]; simpl.
  - split; [done | intros; split; constructor].
  - rewrite IH, Forall_app, Forall_singleton, Forall_cons. naive_solver.
Qed.

Lemma js_ordered_app_l ks1 ks2 : js_ordered (ks1 ++ ks2) → js_ordered ks1.
Proof.
  induction ks1 as [|k ks1 IH]; simpl; [done|].
  rewrite Forall_app. naive_solver.
Qed.

Lemma js_ordered_middle ks1 k ks2 :
  js_ordered (ks1 ++ k :: ks2) → js_ordered (ks1 ++ [k]).
Proof.
  rewrite (cons_middle k ks1 ks2), app_assoc. apply js_ordered_app_l.
Qed.

Lemma js_ordered_NoDup ks : js_ordered ks → NoDup ks.
Proof.
  induction ks as [|k ks IH]; simpl; [constructor|].
  intros [H1 H2]. constructor; [|by apply IH].
  intros Hin. rewrite Forall_forall in H1. by destruct (H1 k Hin).
Qed.

Lemma obj_insert_index_append n k v (o : object) :
  array_index k = Some n →
  Forall (λ k1, key_before k1 k) (obj_keys o) →
  obj_insert_index n k v o = o ++ [(k, v)].
Proof.
  intros Hk. induction o as [|[k' v'] o IH]; simpl; [done|].
  intros [H1 H2]%Forall_cons. unfold key_before in H1. rewrite Hk in H1.
  destruct (array_index k') as [n'|]; [|done].
  assert (Hlt : (n <? n')%N = false) by (apply N.ltb_ge; lia).
  rewrite Hlt. by rewrite IH.
Qed.

(** Assigning the key that comes next in enumeration order appends it. *)
Lemma obj_set_append k v (o : object) :
  js_ordered (obj_keys o ++ [k]) → obj_set k v o = o ++ [(k, v)].
Proof.
  intros [_ H]%js_ordered_snoc. unfold obj_set.
  assert (Hhas : obj_has k o = false).
  { destruct (obj_has k o) eqn:E; [|done]. apply obj_has_true in E.
    rewrite Forall_forall in H. by destruct (H k E). }
  rewrite Hhas. destruct (array_index k) as [n|] eqn:Hn; [|done].
  apply obj_insert_index_append; [done|].
  eapply Forall_impl; [exact H|]. by intros ? [_ ?].
Qed.

(** Assigning the entries of an object in their order builds the object. *)
Lemma obj_build (acc rest : object) :
  js_ordered (obj_keys (acc ++ rest)) →
  foldl (λ d e, obj_set e.1 e.2 d) acc rest = acc ++ rest.
Proof.
  revert acc. induction rest as [|[k v] rest IH]; intros acc H; simpl.
  - by rewrite app_nil_r.
  - rewrite obj_set_append.
    + rewrite IH; rewrite <- app_assoc; done.
    + unfold obj_keys in *. rewrite map_app in H. simpl in H.
      by apply js_ordered_middle in H.
Qed.

(** ** Trees the format can hold *)

(** A line of a comment: not blank, on one line, and not of the form of a
    key with the assign character. *)
Definition comment_line (l : string) : Prop :=
  str_all is_dot l = true ∧ trim l ≠ EmptyString ∧ match_key_assign l = None.




(** The options the constructor accepts, with an assign operator on one
    line. *)
Record valid_options (o : options) : Prop := ValidOptions {
  vo_assign : ∃ ws1 c ws2, assign_parts (opt_assign o) ws1 c ws2;
  vo_indent_nonempty : nonempty (opt_indent o) = true;
  vo_indent :
    str_all (λ c, Ascii.eqb c " " || Ascii.eqb c TAB) (opt_indent o) = true
}.



(** ** The lines the serializer writes *)

Section Serialized.

Variable o : options.
Hypothesis Ho : valid_options o.

Let assign := opt_assign o.
Let indent := opt_indent o.









End Serialized.

(** ** The parser, line by line *)

Import ComfigParser.

(** Outside a block. *)
Definition idle (l : last) : Prop :=
  match l with
  | LNone | LBlank => True
  | _ => False
  end.

Lemma steps_app st (a b : list string) :
  steps st (a ++ b) = (let* st' := steps st a in steps st' b).
Proof.
  revert st. induction a as [|x a IH]; intros st; simpl; [done|].
  destruct (step st x) as [st'|e]; simpl; [apply IH | done].
Qed.





Section Steps.

Variable o : options.
Hypothesis Ho : valid_options o.

Let assign := opt_assign o.
Let indent := opt_indent o.




Section With_assign.

Variables (ws1 : string) (c : ascii) (ws2 : string).
Hypothesis Hassign : assign_parts assign ws1 c ws2.






End With_assign.






Lemma step_comment p l line :
  idle l → comment_line line →
  step (p, l) line = Ok (addComment p line, LNone).
Proof.
  intros Hl (_ & Hne & Hk). unfold step.
  apply String.eqb_neq in Hne. rewrite Hne.
  destruct (no_key_no_match _ Hk) as (-> & -> & -> & ->).
  by destruct l.
Qed.

Lemma step_blank p : step (p, LNone) EmptyString = Ok (flush p, LBlank).
Proof. done. Qed.

End Steps.

(** ** The parser on the lines of a key, of a section, of a tree *)

Lemma steps_cons st x (ls : list string) :
  steps st (x :: ls) = (let* st' := step st x in steps st' ls).
Proof. done. Qed.

Lemma steps_nil st : steps st [] = Ok st.
Proof. done. Qed.

Section Blocks.

Variable o : options.
Hypothesis Ho : valid_options o.



Section With_assign.

Variables (ws1 : string) (c : ascii) (ws2 : string).
Hypothesis Hassign : assign_parts (opt_assign o) ws1 c ws2.




End With_assign.

Lemma steps_comment (ls : list string) : ∀ p l,
  idle l → Forall comment_line ls →
  steps (p, l) ls
  = Ok (foldl addComment p ls, match ls with [] => l | _ => LNone end).
Proof.
  induction ls as [|x ls IH]; intros p l Hl Hls; [done|].
  apply Forall_cons in Hls as [Hx Hls].
  rewrite steps_cons, step_comment by done. cbn [bind].
  rewrite IH by done. by destruct ls.
Qed.

(** *** The state of the parser *)

Lemma addComment_fold (ls : list string) : ∀ p,
  section_ (foldl addComment p ls)
    = {| comment := comment (section_ p) +:+ unlines ls; data := data (section_ p) |}
  ∧ tree_ (foldl addComment p ls) = tree_ p.
Proof.
  induction ls as [|x ls IH]; intros p; simpl.
  - rewrite app_nil_r_s. by destruct (section_ p).
  - destruct (IH (addComment p x)) as [-> ->]. simpl.
    by rewrite !app_assoc_s.
Qed.



Lemma unlines_empty ls : unlines ls = EmptyString → ls = [].
Proof. destruct ls as [|l ls]; [done|]. simpl. by destruct l. Qed.



End Blocks.

(** ** The text of a tree *)



Lemma includes_split c (s : string) :
  includes c s = false → Forall (λ l, includes c l = false) (split LF s).
Proof.
  induction s as [|a s IH]; intros H.
  - by constructor.
  - cbn [includes] in H. apply orb_false_iff in H as [Ha Hs].
    specialize (IH Hs). cbn [split].
    destruct (Ascii.eqb a LF).
    + by constructor.
    + pose proof (split_nonnil LF s) as Hn.
      destruct (split LF s) as [|w ws]; [done|].
      apply Forall_cons in IH as [Hw Hws]. constructor; [|done].
      cbn [includes]. by rewrite Ha, Hw.
Qed.






Section Text.

Variable o : options.
Hypothesis Ho : valid_options o.













End Text.

(** ** Parsing what the serializer writes *)








(** ** The operations that keep the invariant *)

(** The invariant of the store: the index is consistent with the tree and
    no key is held twice. *)
Definition sound (st : store) : Prop :=
  consistent st ∧ NoDup (all_keys (tree st)).



Lemma rebuild_sound st t :
  NoDup (all_keys t) → sound (Comfig._rebuildIndex (with_tree st t)).
Proof.
  intros Hnd. split; [|done].
  by apply (_rebuildIndex_consistent (with_tree st t)).
Qed.

Lemma all_keys_Permutation t t' : t ≡ₚ t' → all_keys t ≡ₚ all_keys t'.
Proof. intros H. unfold all_keys. by rewrite H. Qed.

Lemma splice_in_Permutation i s (t : list section) : splice_in i s t ≡ₚ s :: t.
Proof.
  unfold splice_in. rewrite <- Permutation_middle. by rewrite take_drop.
Qed.

Lemma splice_out_Permutation i s (t : list section) :
  t !! i = Some s → t ≡ₚ s :: splice_out i t.
Proof.
  intros H. destruct (lookup_middle _ _ _ H) as (t1 & t2 & -> & <-).
  rewrite splice_out_middle. by rewrite <- Permutation_middle.
Qed.

Lemma NoDup_all_keys_cons s t :
  NoDup (all_keys (s :: t)) → NoDup (all_keys t).
Proof. rewrite all_keys_cons. by intros (_ & _ & ?)%NoDup_app. Qed.

(** A section may be replaced by one that holds a part of its keys. *)
Lemma NoDup_all_keys_narrow t1 s s' t2 :
  NoDup (all_keys (t1 ++ s :: t2)) →
  NoDup (obj_keys (data s')) → obj_keys (data s') ⊆ obj_keys (data s) →
  NoDup (all_keys (t1 ++ s' :: t2)).
Proof.
  rewrite !all_keys_middle. intros (H1 & Hd & (Hs & Hd2 & H2)%NoDup_app)%NoDup_app Hs' Hsub.
  apply NoDup_app. split; [done|]. split.
  - intros x Hx Hx'. apply (Hd x Hx).
    apply elem_of_app in Hx' as [Hx'|Hx']; apply elem_of_app; [left | by right].
    by apply Hsub.
  - apply NoDup_app. split; [done|]. split; [|done].
    intros x Hx. apply Hd2. by apply Hsub.
Qed.

(** Replacing the data of a section by data with the same keys. *)
Lemma sound_same_keys st idx s (d : object) :
  tree st !! idx = Some s → obj_keys d = obj_keys (data s) →
  sound st → sound (with_tree st (<[idx := with_data s d]> (tree st))).
Proof.
  intros Hs Hd [Hc Hnd]. apply consistent_has_at in Hc as [Hfwd Hbwd].
  destruct (lookup_middle _ _ _ Hs) as (t1 & t2 & Ht & <-).
  unfold sound. rewrite consistent_has_at. simpl. rewrite Ht in *.
  rewrite insert_middle.
  assert (Hsame : ∀ i k, has_at (t1 ++ with_data s d :: t2) i k
                         ↔ has_at (t1 ++ s :: t2) i k).
  { intros i k. by apply has_at_same_keys. }
  split; [split|].
  - intros i k Hi. by apply Hfwd, Hsame.
  - intros k i Hi. by apply Hsame, Hbwd.
  - rewrite all_keys_middle. cbn [data with_data].
    by rewrite Hd, <- all_keys_middle.
Qed.

Lemma deleteSection_sound st idx :
  sound st → sound (Comfig.deleteSection st idx).1.
Proof.
  intros Hs. unfold Comfig.deleteSection.
  destruct (tree st !! idx) as [s|] eqn:E; [|done]. simpl.
  apply rebuild_sound. destruct Hs as [_ Hnd].
  rewrite (all_keys_Permutation _ _ (splice_out_Permutation idx s _ E)) in Hnd.
  by apply NoDup_all_keys_cons in Hnd.
Qed.

Lemma moveSection_sound st idxFrom idxTo :
  sound st → sound (Comfig.moveSection st idxFrom idxTo).1.
Proof.
  intros Hs. unfold Comfig.moveSection.
  destruct (tree st !! idxFrom) as [s|] eqn:E; [|done].
  destruct (tree st !! idxTo); [|done]. simpl.
  apply rebuild_sound. destruct Hs as [_ Hnd].
  rewrite (all_keys_Permutation _ _ (splice_in_Permutation _ s _)).
  by rewrite <- (all_keys_Permutation _ _ (splice_out_Permutation idxFrom s _ E)).
Qed.

Lemma addSection_sound st o :
  sound st → sound (Comfig.addSection st o).1.
Proof.
  intros Hs. unfold Comfig.addSection.
  repeat (match goal with
          | |- context [if ?b then _ else _] => destruct b eqn:?; [done|]
          end).
  assert (Hnew : ∀ c,
    NoDup (all_keys
      ({| comment := c;
          data := default []
                    (if Comfig.truthy_str (Comfig.so_key o)
                     then Some [(default EmptyString (Comfig.so_key o),
                                 default VUndefined (Comfig.so_value o))]
                     else None) |} :: tree st))).
  { intros c. rewrite all_keys_cons. simpl.
    destruct Hs as [Hc Hnd].
    destruct (Comfig.truthy_str (Comfig.so_key o)) eqn:Hk; simpl; [|done].
    apply NoDup_cons. split; [|done].
    intros Hin. apply elem_of_all_keys in Hin as (i & s & Hi & Hin).
    destruct Hc as [Hfwd _]. rewrite (Hfwd i s _ Hi Hin) in *. done. }
  destruct (Comfig.so_id o) as [id|].
  - repeat (match goal with
            | |- context [if ?b then _ else _] => destruct b eqn:?; [done|]
            end).
    simpl. apply rebuild_sound.
    by rewrite (all_keys_Permutation _ _ (splice_in_Permutation _ _ _)).
  - simpl. apply rebuild_sound.
    match goal with
    | |- NoDup (all_keys (_ ++ [?x])) =>
        rewrite (all_keys_Permutation (tree st ++ [x]) (x :: tree st))
          by (by rewrite Permutation_app_comm)
    end.
    apply Hnew.
Qed.

Lemma _rebuildIndex_sound st :
  NoDup (all_keys (tree st)) → sound (Comfig._rebuildIndex st).
Proof. intros Hnd. split; [|done]. by apply _rebuildIndex_consistent. Qed.


(** [this.tree[idx].data[key] = v] for an indexed key keeps the keys. *)
Lemma assign_at_sound st idx key v st' :
  sound st → index st !! key = Some idx →
  Comfig.assign_at st idx key v = Ok st' →
  sound st' ∧ index st' = index st.
Proof.
  intros Hs Hk. unfold Comfig.assign_at.
  pose proof Hs as [Hc _]. apply consistent_has_at in Hc as [_ Hbwd].
  destruct (Hbwd key idx Hk) as (s & Hi & Hin). rewrite Hi.
  intros [= <-]. split; [|done].
  apply sound_same_keys; [done | | done].
  by rewrite obj_set_has, obj_keys_replace.
Qed.





(** Whatever the index says, [delete] leaves no key twice in the tree. *)
Lemma delete_NoDup st dotKey removeComment st' r :
  NoDup (all_keys (tree st)) →
  Comfig.delete st dotKey removeComment = Ok (st', r) →
  NoDup (all_keys (tree st')).
Proof.
  intros Hnd. unfold Comfig.delete. destruct (split_path dotKey) as [key sub].
  destruct (index st !! key) as [idx|]; [|by intros [= <- _]].
  destruct (tree st !! idx) as [s|] eqn:Hi; [|done].
  destruct (lookup_middle _ _ _ Hi) as (t1 & t2 & Ht & <-).
  assert (Hs : NoDup (obj_keys (data s))).
  { rewrite Ht, all_keys_middle in Hnd.
    by apply NoDup_app in Hnd as (_ & _ & (? & _ & _)%NoDup_app). }
  assert (Hsame : ∀ item,
            NoDup (all_keys (<[length t1 := with_data s (obj_replace key item (data s))]>
                               (tree st)))).
  { intros item. rewrite Ht, insert_middle.
    apply (NoDup_all_keys_narrow t1 s); simpl; rewrite ?obj_keys_replace; try done.
    by rewrite <- Ht. }
  destruct (given sub) as [sk|].
  - destruct (prop (data s) key); try (by intros [= <- _]);
      intros [= <- _]; apply Hsame.
  - assert (Hdel : NoDup (all_keys (t1 ++ with_data s (obj_delete key (data s)) :: t2))).
    { apply (NoDup_all_keys_narrow t1 s); simpl.
      - by rewrite <- Ht.
      - by apply obj_keys_delete_NoDup.
      - apply obj_keys_delete_subseteq. }
    rewrite Ht, insert_middle.
    destruct (_ || _); intros [= <- _]; simpl; [done|].
    rewrite splice_out_middle.
    rewrite all_keys_middle in Hdel. rewrite all_keys_app.
    apply NoDup_app in Hdel as (H1 & Hd & (_ & _ & H2)%NoDup_app).
    apply NoDup_app. split; [done|]. split; [|done].
    intros x Hx Hx2. apply (Hd x Hx). apply elem_of_app. by right.
Qed.

Lemma _sync__prune_NoDup todo keep : ∀ st st',
  NoDup (all_keys (tree st)) →
  Comfig._sync__prune todo keep st = Ok st' →
  NoDup (all_keys (tree st')).
Proof.
  induction todo as [|k todo IH]; intros st st' Hnd; simpl.
  - by intros [= <-].
  - destruct (bool_decide (k ∈ keep)); [by apply IH|].
    destruct (Comfig.delete st k true) as [[st1 r1]|] eqn:E; simpl; [|done].
    apply IH. eapply delete_NoDup; [exact Hnd | exact E].
Qed.

Lemma _sync__update_sound keys e : ∀ st st',
  sound st → Comfig._sync__update keys e st = Ok st' → sound st'.
Proof.
  induction keys as [|k keys IH]; intros st st' Hs; simpl.
  - by intros [= <-].
  - destruct (index st !! k) as [idx|] eqn:Hk; [|by apply IH].
    destruct (Comfig.assign_at st idx k (prop e k)) as [st1|] eqn:E; simpl; [|done].
    destruct (assign_at_sound _ _ _ _ _ Hs Hk E) as [Hs1 _]. by apply IH.
Qed.

(** [sync] with a plain object keeps the invariant in its three modes. *)
Lemma sync_sound st e o st' r :
  sound st → NoDup (obj_keys e) →
  Comfig.sync st (VObj e) o = Ok (st', r) → sound st'.
Proof.
  intros Hs He. unfold Comfig.sync. cbn [Comfig.own_entries].
  set (objKeys := filter (λ key, Comfig.unmarked key = true) (obj_keys e)).
  assert (HndK : NoDup objKeys) by by apply NoDup_filter.
  assert (Hmerge : ∃ st1, Comfig._sync__merge objKeys e st = Ok st1
                          ∧ NoDup (all_keys (tree st1))).
  { pose proof Hs as [Hc Hnd]. apply consistent_has_at in Hc as [Hfwd Hbwd].
    assert (Hinv0 : merge_inv (tree st) (index st) e [] (tree st)).
    { constructor; try done.
      - intros i k Hi. left. by apply Hfwd.
      - intros k Hk. by apply not_elem_of_nil in Hk. }
    destruct (_sync__merge_inv (tree st) (index st) e objKeys [] st eq_refl HndK
                (λ k _, not_elem_of_nil k) Hinv0)
      as (st1 & E & _ & _ & [_ _ Hnd1 _ _]).
    eauto. }
  destruct (Comfig.update o).
  - destruct (Comfig._sync__update (obj_keys e) e st) as [st1|] eqn:E; simpl; [|done].
    intros [= <- _]. apply _rebuildIndex_sound.
    by destruct (_sync__update_sound _ _ _ _ Hs E).
  - destruct Hmerge as (st1 & -> & Hnd1). simpl.
    destruct (Comfig.merge o); [intros [= <- _]; by apply _rebuildIndex_sound|].
    destruct (Comfig.mirror o); [|by intros [= <- _]].
    destruct (Comfig._sync__prune (Comfig.getKeys st1) objKeys st1) as [st2|] eqn:E;
      simpl; [|done].
    intros [= <- _]. apply _rebuildIndex_sound. eapply _sync__prune_NoDup; [exact Hnd1 | exact E].
Qed.

(** The sample store satisfies the invariant. *)
Lemma sample_store_sound : sound sample_store.
Proof.
  split; [exact sample_store_consistent|].
  apply (bool_decide_unpack _). by vm_compute.
Qed.

(** ** The calls return, and keep the invariant *)




(** *** The loops of [sync] *)

(** What the loops of [sync] keep while the index lags behind the tree: no
    key twice, and every index entry at a section that has the key. *)
Definition anchored (st : store) : Prop :=
  NoDup (all_keys (tree st))
  ∧ ∀ k i, index st !! k = Some i → has_at (tree st) i k.

Lemma sound_anchored st : sound st → anchored st.
Proof. intros [Hc Hnd]. apply consistent_has_at in Hc as [_ Hbwd]. by split. Qed.






(** *** The theorems *)





(** X3.  [addSection] keeps the invariant, whether it adds a section or
    returns an error. *)
Theorem addSection_keeps_invariant st o :
  sound st → sound (Comfig.addSection st o).1.
Proof. apply addSection_sound. Qed.

Lemma addSection_keeps_invariant_witness :
  sound (Comfig.addSection sample_store
           (Comfig.SectionOpts (Some 1) (Some "k") (Some VNull) (Some "note"))).1.
Proof. exact (addSection_keeps_invariant sample_store _ sample_store_sound). Defined.

(** X4.  [moveSection] keeps the invariant. *)
Theorem moveSection_keeps_invariant st idxFrom idxTo :
  sound st → sound (Comfig.moveSection st idxFrom idxTo).1.
Proof. apply moveSection_sound. Qed.

Lemma moveSection_keeps_invariant_witness :
  sound (Comfig.moveSection sample_store 0 1).1.
Proof. exact (moveSection_keeps_invariant sample_store 0 1 sample_store_sound). Defined.

(** X5.  [deleteSection] keeps the invariant. *)
Theorem deleteSection_keeps_invariant st idx :
  sound st → sound (Comfig.deleteSection st idx).1.
Proof. apply deleteSection_sound. Qed.

Lemma deleteSection_keeps_invariant_witness :
  sound (Comfig.deleteSection sample_store 0).1.
Proof. exact (deleteSection_keeps_invariant sample_store 0 sample_store_sound). Defined.



#[local] Arguments given : simpl never.

(** ** Reading and writing *)


Lemma obj_get_app k (a b : object) :
  obj_get k (a ++ b) = match obj_get k a with Some v => Some v | None => obj_get k b end.
Proof.
  induction a as [|[k' v'] a IH]; simpl; [done|]. by destruct (String.eqb k' k).
Qed.

Lemma obj_get_insert_index_ne n k v k' (o : object) :
  k ≠ k' → obj_get k' (obj_insert_index n k v o) = obj_get k' o.
Proof.
  intros Hne. apply String.eqb_neq in Hne.
  induction o as [|[k0 v0] o IH]; simpl; [by rewrite Hne|].
  destruct (array_index k0) as [n0|]; [destruct (n <? n0)%N|]; simpl;
    rewrite ?Hne, ?IH; done.
Qed.

Lemma obj_get_insert_index_eq n k v (o : object) :
  k ∉ obj_keys o → obj_get k (obj_insert_index n k v o) = Some v.
Proof.
  induction o as [|[k0 v0] o IH]; simpl; intros Hk; [by rewrite String.eqb_refl|].
  apply not_elem_of_cons in Hk as [Hne Hk]. apply not_eq_sym, String.eqb_neq in Hne.
  destruct (array_index k0) as [n0|]; [destruct (n <? n0)%N|]; simpl;
    rewrite ?String.eqb_refl, ?Hne; auto.
Qed.

(** [o[k] = v] and then [o[k]] *)
Lemma obj_get_set_eq k v (o : object) : obj_get k (obj_set k v o) = Some v.
Proof.
  unfold obj_set. destruct (obj_has k o) eqn:E.
  - apply obj_get_replace_eq. by apply obj_has_true.
  - assert (Hk : k ∉ obj_keys o).
    { intros H%obj_has_true. congruence. }
    destruct (array_index k); [by apply obj_get_insert_index_eq|].
    rewrite obj_get_app. apply obj_get_None in Hk. rewrite Hk. simpl.
    by rewrite String.eqb_refl.
Qed.

Lemma obj_get_set_ne k k' v (o : object) :
  k ≠ k' → obj_get k' (obj_set k v o) = obj_get k' o.
Proof.
  intros Hne. unfold obj_set. destruct (obj_has k o).
  - by apply obj_get_replace_ne.
  - destruct (array_index k); [by apply obj_get_insert_index_ne|].
    rewrite obj_get_app. destruct (obj_get k' o); [done|]. simpl.
    apply String.eqb_neq in Hne. by rewrite Hne.
Qed.






(** *** What [get] reads in a section *)








(** *** Members *)




(** ** The rebuilt index *)

Lemma rebuild_from_last : ∀ t n ix k i,
  Comfig.rebuild_from n t ix !! k = Some i ↔
  (∃ j, i = n + j ∧ has_at t j k ∧ (∀ j', j < j' → ¬ has_at t j' k))
  ∨ ((k ∉ all_keys t) ∧ ix !! k = Some i).
Proof.
  induction t as [|s t IH]; intros n ix k i; cbn [Comfig.rebuild_from].
  - split.
    + intros H. right. split; [apply not_elem_of_nil | done].
    + intros [(j & _ & (s & Hs & _) & _)|[_ H]]; done.
  - rewrite IH, foldl_insert_lookup, all_keys_cons. split.
    + intros [(j & -> & Hj & Hlast)|[Hnot Hix]].
      * left. exists (S j). split; [lia|]. split.
        -- apply has_at_cons. right. split; [lia|]. by rewrite Nat.sub_1_r.
        -- intros j' Hlt Hj'. apply has_at_cons in Hj' as [[-> _]|[_ Hj']]; [lia|].
           apply (Hlast (j' - 1)); [lia | done].
      * destruct (decide (k ∈ obj_keys (data s))) as [Hin|Hnin].
        -- rewrite bool_decide_eq_true_2 in Hix by done. injection Hix as <-.
           left. exists 0. split; [lia|]. split.
           ++ apply has_at_cons. by left.
           ++ intros j' Hlt Hj'. apply has_at_cons in Hj' as [[-> _]|[_ Hj']]; [lia|].
              apply Hnot, has_at_all_keys. eauto.
        -- rewrite bool_decide_eq_false_2 in Hix by done. right. split; [|done].
           intros [?|?]%elem_of_app; done.
    + intros [(j & -> & Hj & Hlast)|[Hnot Hix]].
      * apply has_at_cons in Hj as [[-> Hin]|[Hpos Hj]].
        -- right. split.
           ++ intros (j' & Hj')%has_at_all_keys. apply (Hlast (S j')); [lia|].
              apply has_at_cons. right. split; [lia|]. by rewrite Nat.sub_1_r.
           ++ rewrite bool_decide_eq_true_2 by done. f_equal. lia.
        -- left. exists (j - 1). split; [lia|]. split; [done|].
           intros j' Hlt Hj'. apply (Hlast (S j')); [lia|].
           apply has_at_cons. right. split; [lia|]. by rewrite Nat.sub_1_r.
      * right. apply not_elem_of_app in Hnot as [Hn1 Hn2]. split; [done|].
        by rewrite bool_decide_eq_false_2.
Qed.

Lemma rebuild_from_None : ∀ t n ix k,
  Comfig.rebuild_from n t ix !! k = None ↔ (k ∉ all_keys t) ∧ ix !! k = None.
Proof.
  induction t as [|s t IH]; intros n ix k; cbn [Comfig.rebuild_from].
  - split; [intros H; split; [apply not_elem_of_nil | done] | by intros [_ ?]].
  - rewrite IH, foldl_insert_lookup, all_keys_cons, not_elem_of_app.
    destruct (decide (k ∈ obj_keys (data s))) as [Hin|Hnin].
    + rewrite bool_decide_eq_true_2 by done. naive_solver.
    + rewrite bool_decide_eq_false_2 by done. naive_solver.
Qed.

Lemma rebuild_from_None_iff t k :
  Comfig.rebuild_from 0 t ∅ !! k = None ↔ k ∉ all_keys t.
Proof. rewrite rebuild_from_None, lookup_empty. naive_solver. Qed.

(** X9.  [_rebuildIndex] leaves the tree as it is and maps each key to the
    last section that has it; a key of no section gets no entry. *)
Theorem rebuildIndex_last_owner st k :
  tree (Comfig._rebuildIndex st) = tree st
  ∧ (∀ i, index (Comfig._rebuildIndex st) !! k = Some i ↔
          has_at (tree st) i k ∧ (∀ j, i < j → ¬ has_at (tree st) j k))
  ∧ (index (Comfig._rebuildIndex st) !! k = None ↔ k ∉ all_keys (tree st)).
Proof.
  split; [done|]. simpl.
  assert (H : ∀ i, Comfig.rebuild_from 0 (tree st) ∅ !! k = Some i ↔
          has_at (tree st) i k ∧ (∀ j, i < j → ¬ has_at (tree st) j k)).
  { intros i. rewrite rebuild_from_last. split.
    - intros [(j & -> & Hj & Hlast)|[_ H]]; [done | by rewrite lookup_empty in H].
    - intros [Hi Hlast]. left. by exists i. }
  split; [done|]. apply rebuild_from_None_iff.
Qed.

(** ** Sections *)

Lemma splice_in_lookup (i : nat) s (t : list section) :
  i ≤ length t → splice_in i s t !! i = Some s.
Proof.
  intros Hle. unfold splice_in.
  rewrite lookup_app_r by (rewrite length_take; lia).
  rewrite length_take. by replace (i - i `min` length t) with 0 by lia.
Qed.

Lemma splice_out_in (i : nat) s (t : list section) :
  i ≤ length t → splice_out i (splice_in i s t) = t.
Proof.
  intros Hle. unfold splice_out, splice_in.
  rewrite take_app_le by (rewrite length_take; lia).
  rewrite take_take, Nat.min_id.
  rewrite drop_app_ge by (rewrite length_take; lia).
  rewrite length_take. replace (S i - i `min` length t) with 1 by lia.
  simpl. rewrite drop_0. apply take_drop.
Qed.

Lemma length_splice_out (i : nat) (t : list section) :
  i < length t → length (splice_out i t) = length t - 1.
Proof.
  intros Hlt. unfold splice_out. rewrite length_app, length_take, length_drop. lia.
Qed.

Lemma length_splice_in (i : nat) s (t : list section) :
  length (splice_in i s t) = S (length t).
Proof.
  unfold splice_in. rewrite length_app, length_take. simpl. rewrite length_drop. lia.
Qed.

(** X10.  [moveSection] with two ids of the tree takes the section out and
    puts it back at [idxTo], or one place before when it moves towards the
    end; the other sections keep their order.  With any other id it
    returns the error and changes nothing. *)
Theorem moveSection_places st idxFrom idxTo :
  match tree st !! idxFrom, tree st !! idxTo with
  | Some s, Some _ =>
      let pos := if idxFrom <? idxTo then idxTo - 1 else idxTo in
      ∃ st', Comfig.moveSection st idxFrom idxTo = (st', RUndefined)
        ∧ tree st' !! pos = Some s
        ∧ splice_out pos (tree st') = splice_out idxFrom (tree st)
        ∧ length (tree st') = length (tree st)
  | _, _ =>
      Comfig.moveSection st idxFrom idxTo = (st, RError "invalid section id")
  end.
Proof.
  unfold Comfig.moveSection.
  destruct (tree st !! idxFrom) as [s|] eqn:Hf; [|done].
  destruct (tree st !! idxTo) as [s2|] eqn:Ht; [|done].
  apply lookup_lt_Some in Hf, Ht.
  set (pos := if idxFrom <? idxTo then idxTo - 1 else idxTo).
  assert (Hpos : pos ≤ length (splice_out idxFrom (tree st))).
  { rewrite length_splice_out by done. unfold pos.
    destruct (idxFrom <? idxTo) eqn:E; [|lia].
    apply Nat.ltb_lt in E. lia. }
  eexists. split; [done|]. simpl.
  split; [by apply splice_in_lookup|]. split; [by apply splice_out_in|].
  rewrite length_splice_in, length_splice_out by done. lia.
Qed.



(** X12.  [reorderSection] with the keys of the section in an order the
    engine keeps (no key twice, array-index keys first and ascending) puts
    the keys of the section in that order, each with its value. *)
Theorem reorderSection_reorders st idx s newOrder :
  tree st !! idx = Some s →
  newOrder ≡ₚ obj_keys (data s) → js_ordered newOrder →
  Comfig.reorderSection st idx newOrder
  = (with_tree st
       (<[idx := with_data s (map (λ k, (k, prop (data s) k)) newOrder)]> (tree st)),
     RUndefined).
Proof.
  intros Hi Hp Ho. unfold Comfig.reorderSection. rewrite Hi.
  pose proof (js_ordered_NoDup _ Ho) as Hnd.
  assert (Hc : Comfig._commonArrays (obj_keys (data s)) newOrder = true).
  { apply _commonArrays_true; [by rewrite <- Hp|]. split; [done|].
    intros x Hx. by rewrite <- Hp. }
  rewrite Hc. simpl. do 3 f_equal.
  assert (Hfold : ∀ (l : list string) (f : string → value) acc,
            foldl (λ d key, obj_set key (f key) d) acc l
            = foldl (λ d (e : string * value), obj_set e.1 e.2 d) acc
                (map (λ k, (k, f k)) l)).
  { induction l as [|k l IH]; intros f acc; simpl; [done | apply IH]. }
  rewrite Hfold. rewrite (obj_build [] _); [done|]. simpl.
  unfold obj_keys. rewrite map_map. simpl. by rewrite map_id.
Qed.

Lemma reorderSection_reorders_witness :
  Comfig.reorderSection sample_store 0 ["b"; "a"]
  = (with_tree sample_store
       (<[0 := with_data {| comment := EmptyString; data := [("a", VInt 1); ("b", VInt 2)] |}
                (map (λ k, (k, prop [("a", VInt 1); ("b", VInt 2)] k)) ["b"; "a"])]>
          (tree sample_store)),
     RUndefined).
Proof.
  apply (reorderSection_reorders sample_store 0
           {| comment := EmptyString; data := [("a", VInt 1); ("b", VInt 2)] |}
           ["b"; "a"] eq_refl).
  - apply perm_swap.
  - apply (bool_decide_unpack _). vm_compute. exact I.
Defined.



(** ** [sync] in the [update] and [merge] modes *)
















(** *** The [merge] mode *)




(** ** What the parser builds *)

(** A value [convertValue] may return: [null], a boolean, a number that is
    finite and not negative, or a string on one line that is trimmed and
    not empty. *)
Definition simple (v : value) : Prop :=
  match v with
  | VNull | VBool _ => True
  | VNum (Fin false _ frac) => str_all is_digit frac = true
  | VStr s => includes LF s = false ∧ trim s = s ∧ s ≠ EmptyString
  | _ => False
  end.

(** A value the parser may store under a key: a simple value, any string
    (a multiline block), an array of simple values, or an object of simple
    values under keys of the key pattern. *)
Definition flat (v : value) : Prop :=
  match v with
  | VArr l => Forall simple l
  | VObj m => Forall (λ e : string * value, valid_key e.1 ∧ simple e.2) m
  | VStr _ => True
  | _ => simple v
  end.

Definition entry_ok (e : string * value) : Prop := valid_key e.1 ∧ flat e.2.

Definition section_ok (s : section) : Prop :=
  (comment s ≠ EmptyString ∨ data s ≠ []) ∧ Forall entry_ok (data s).

Lemma simple_flat v : simple v → flat v.
Proof. by destruct v. Qed.

(** *** Strings *)

Lemma str_all_drop_while p q (s : string) :
  str_all p s = true → str_all p (drop_while q s) = true.
Proof.
  induction s as [|c s IH]; simpl; [done|]. intros [Hc Hs]%andb_true_iff.
  destruct (q c); [by apply IH|]. simpl. by rewrite Hc, Hs.
Qed.

Lemma str_all_drop_while_end p q (s : string) :
  str_all p s = true → str_all p (drop_while_end q s) = true.
Proof.
  induction s as [|c s IH]; simpl; [done|]. intros [Hc Hs]%andb_true_iff.
  specialize (IH Hs). destruct (drop_while_end q s) eqn:E.
  - destruct (q c); simpl; [done | by rewrite Hc].
  - simpl. simpl in IH. by rewrite Hc, IH.
Qed.

Lemma str_all_trim p (s : string) : str_all p s = true → str_all p (trim s) = true.
Proof. intros H. by apply str_all_drop_while_end, str_all_drop_while. Qed.

Lemma includes_trim c (s : string) : includes c s = false → includes c (trim s) = false.
Proof. rewrite !includes_false. apply str_all_trim. Qed.

Lemma str_all_span p q (s : string) :
  str_all p s = true →
  str_all p (span q s).1 = true ∧ str_all p (span q s).2 = true.
Proof.
  induction s as [|c s IH]; simpl; [done|]. intros [Hc Hs]%andb_true_iff.
  destruct (q c).
  - destruct (span q s) as [a b]. simpl in *. destruct (IH Hs) as [Ha Hb].
    by rewrite Hc, Ha.
  - simpl. by rewrite Hc, Hs.
Qed.

Lemma span_fst_all p (s : string) : str_all p (span p s).1 = true.
Proof.
  induction s as [|c s IH]; simpl; [done|]. destruct (p c) eqn:E; [|done].
  destruct (span p s) as [a b]. simpl in *. by rewrite E, IH.
Qed.

Lemma drop_while_end_idem p (s : string) :
  drop_while_end p (drop_while_end p s) = drop_while_end p s.
Proof.
  induction s as [|c s IH]; simpl; [done|].
  destruct (drop_while_end p s) as [|a r] eqn:E.
  - destruct (p c) eqn:Ec; simpl; [done | by rewrite Ec].
  - cbn [drop_while_end]. cbn [drop_while_end] in IH. by rewrite IH.
Qed.

Lemma drop_while_fixed p (s : string) :
  match s with EmptyString => True | String c _ => p c = false end →
  drop_while p s = s.
Proof. destruct s as [|c s]; simpl; [done|]. by intros ->. Qed.

Lemma drop_while_headed p (s : string) :
  match drop_while p s with EmptyString => True | String c _ => p c = false end.
Proof.
  induction s as [|c s IH]; simpl; [done|]. destruct (p c) eqn:E; [done|]. done.
Qed.

Lemma drop_while_end_headed p (s : string) :
  match s with EmptyString => True | String c _ => p c = false end →
  match drop_while_end p s with EmptyString => True | String c _ => p c = false end.
Proof.
  destruct s as [|c s]; [done|]. intros Hc.
  destruct (drop_while_end_cons p c s) as (r & -> & [->|[r' ->]]); done.
Qed.

Lemma trim_idem (s : string) : trim (trim s) = trim s.
Proof.
  unfold trim.
  rewrite (drop_while_fixed is_space (drop_while_end is_space (drop_while is_space s))).
  - apply drop_while_end_idem.
  - apply drop_while_end_headed, drop_while_headed.
Qed.

(** *** [convertValue] *)

Lemma uint_of_string_digits (s : string) :
  str_all is_digit s = true → ∃ d, NilEmpty.uint_of_string s = Some d.
Proof.
  induction s as [|c s IH]; simpl; [eauto|]. intros [Hc Hs]%andb_true_iff.
  destruct (IH Hs) as [d ->].
  destruct c as [[] [] [] [] [] [] [] []]; try discriminate Hc; simpl; eauto.
Qed.

Lemma undec_digits (s : string) :
  nonempty s = true → str_all is_digit s = true → ∃ n, undec s = Some n.
Proof.
  intros Hn Hd. unfold undec. rewrite Hn, Hd. simpl.
  destruct (uint_of_string_digits s Hd) as [d ->]. simpl. eauto.
Qed.

Lemma convertValue_simple (x : string) :
  includes LF x = false → simple (ComfigParser.convertValue x).
Proof.
  intros Hx. unfold ComfigParser.convertValue.
  destruct (is_int_literal (trim x)) eqn:Hi.
  { unfold is_int_literal in Hi. apply andb_true_iff in Hi as [Hn Hd].
    unfold parseInt. by destruct (undec_digits _ Hn Hd) as [n ->]. }
  destruct (is_float_literal (trim x)) eqn:Hf.
  { unfold is_float_literal, parseFloat in *.
    pose proof (span_fst_all is_digit (trim x)) as Ha.
    destruct (span is_digit (trim x)) as [a b]. simpl in Ha.
    apply andb_true_iff in Hf as [Hn Hb].
    destruct (undec_digits _ Hn Ha) as [n ->].
    destruct b as [|c f]; [done|].
    destruct (Ascii.eqb_spec c ".") as [->|Hne].
    - apply andb_true_iff in Hb as [_ Hd]. rewrite Hd. simpl.
      by apply str_all_drop_while_end.
    - exfalso. revert Hb.
      destruct c as [[] [] [] [] [] [] [] []]; try done. }
  destruct (String.eqb "true" (trim x)); [done|].
  destruct (String.eqb "false" (trim x)); [done|].
  destruct (_ || _) eqn:E; [done|].
  simpl. split; [by apply includes_trim|]. split; [apply trim_idem|].
  intros H. rewrite H in E. done.
Qed.

Lemma convertValue_dot (x : string) :
  str_all is_dot x = true → simple (ComfigParser.convertValue x).
Proof. intros H. apply convertValue_simple. by apply str_dot_no_LF. Qed.

(** *** The line patterns *)

Lemma match_key_assign_key line key r :
  match_key_assign line = Some (key, r) → valid_key key.
Proof.
  unfold match_key_assign. pose proof (span_fst_all is_keychar line) as Ha.
  destruct (span is_keychar line) as [k r0]. simpl in Ha.
  destruct (nonempty k) eqn:Hn; [|done].
  destruct (drop_while is_space r0) as [|c r']; [done|].
  destruct (_ || _); [|done]. by intros [= <- _].
Qed.

Lemma match_multistring_key line key :
  match_multistring line = Some key → valid_key key.
Proof.
  unfold match_multistring.
  destruct (match_key_assign line) as [[k r]|] eqn:E; [|done].
  destruct (span is_space r). destruct (_ && _); [|done].
  intros [= <-]. by eapply match_key_assign_key.
Qed.

Lemma match_array_key line key : match_array line = Some key → valid_key key.
Proof.
  unfold match_array.
  destruct (match_key_assign line) as [[k r]|] eqn:E; [|done].
  destruct (starts_with _ _); [|done].
  intros [= <-]. by eapply match_key_assign_key.
Qed.

Lemma match_object_key line key : match_object line = Some key → valid_key key.
Proof.
  unfold match_object.
  destruct (match_key_assign line) as [[k r]|] eqn:E; [|done].
  destruct (starts_with _ _); [|done].
  intros [= <-]. by eapply match_key_assign_key.
Qed.

Lemma match_option_key line key v :
  match_option line = Some (key, v) → valid_key key ∧ str_all is_dot v = true.
Proof.
  unfold match_option.
  destruct (match_key_assign line) as [[k r]|] eqn:E; [|done].
  intros [= <- <-]. split; [by eapply match_key_assign_key | apply span_fst_all].
Qed.

Lemma match_objectBody_key line key v :
  match_objectBody line = Some (key, v) → valid_key key ∧ str_all is_dot v = true.
Proof.
  unfold match_objectBody. destruct (span is_space line) as [ws r].
  destruct (nonempty ws); [|done]. apply match_option_key.
Qed.

(** *** The state of the parser *)

Lemma rebuild_from_app : ∀ t1 t2 i ix,
  Comfig.rebuild_from i (t1 ++ t2) ix
  = Comfig.rebuild_from (i + length t1) t2 (Comfig.rebuild_from i t1 ix).
Proof.
  induction t1 as [|s t1 IH]; intros t2 i ix; simpl.
  - by rewrite Nat.add_0_r.
  - rewrite IH. by replace (S i + length t1) with (i + S (length t1)) by lia.
Qed.

Lemma Forall_obj_replace (P : string * value → Prop) k v (o : object) :
  P (k, v) → Forall P o → Forall P (obj_replace k v o).
Proof.
  intros Hk. induction 1 as [|[k' v'] o Hx Ho IH]; simpl; [done|].
  destruct (String.eqb_spec k' k) as [->|Hne]; constructor; done.
Qed.

Lemma Forall_obj_insert_index (P : string * value → Prop) n k v (o : object) :
  P (k, v) → Forall P o → Forall P (obj_insert_index n k v o).
Proof.
  intros Hk. induction 1 as [|[k' v'] o Hx Ho IH]; simpl; [by constructor|].
  destruct (array_index k') as [n'|]; [destruct (n <? n')%N|];
    repeat constructor; done.
Qed.

Lemma Forall_obj_set (P : string * value → Prop) k v (o : object) :
  P (k, v) → Forall P o → Forall P (obj_set k v o).
Proof.
  intros Hk Ho. unfold obj_set. destruct (obj_has k o).
  - by apply Forall_obj_replace.
  - destruct (array_index k).
    + by apply Forall_obj_insert_index.
    + apply Forall_app. split; [done | by constructor].
Qed.

(** What [parse] keeps from line to line: the section id is the number of
    sections flushed, the index is the one [_rebuildIndex] would compute
    from the flushed sections and the pending one, and the sections hold
    what the line patterns and [convertValue] give. *)
Record parser_ok (p : ComfigParser.parser) : Prop := ParserOk {
  po_id : ComfigParser.sectionId p = length (ComfigParser.tree_ p);
  po_index :
    ComfigParser.index_ p
    = Comfig.rebuild_from 0 (ComfigParser.tree_ p ++ [ComfigParser.section_ p]) ∅;
  po_tree : Forall section_ok (ComfigParser.tree_ p);
  po_section : Forall entry_ok (data (ComfigParser.section_ p))
}.

Definition last_ok (l : ComfigParser.last) : Prop :=
  match l with
  | ComfigParser.LMultistring key _ => valid_key key
  | ComfigParser.LArray key buffer => valid_key key ∧ Forall simple buffer
  | ComfigParser.LObject key buffer =>
      valid_key key
      ∧ Forall (λ e : string * value, valid_key e.1 ∧ simple e.2) buffer
  | _ => True
  end.

Lemma init_ok : parser_ok ComfigParser.init.
Proof. by constructor. Qed.

Lemma flush_ok p : parser_ok p → parser_ok (ComfigParser.flush p).
Proof.
  intros [Hid Hix Ht Hs]. unfold ComfigParser.flush.
  destruct (_ && _) eqn:E; [done|].
  constructor; simpl.
  - rewrite length_app. simpl. lia.
  - rewrite Hix. by rewrite (rebuild_from_app (_ ++ [_]) [_]).
  - apply Forall_app. split; [done|]. constructor; [|done]. split; [|done].
    apply andb_false_iff in E as [E|E].
    + left. intros H. by rewrite H in E.
    + right. intros H. by rewrite H in E.
  - done.
Qed.

Lemma addComment_ok p c : parser_ok p → parser_ok (ComfigParser.addComment p c).
Proof.
  intros [Hid Hix Ht Hs]. constructor; simpl; try done.
  rewrite Hix, !rebuild_from_app. done.
Qed.

Lemma addKey_ok p key v :
  parser_ok p → valid_key key → flat v → parser_ok (ComfigParser.addKey p key v).
Proof.
  intros [Hid Hix Ht Hs] Hk Hv. constructor; simpl; try done.
  - rewrite Hix, !rebuild_from_app. simpl. rewrite Hid.
    apply map_eq. intros k. rewrite foldl_insert_lookup.
    destruct (decide (k = key)) as [->|Hne].
    + rewrite lookup_insert_eq. rewrite bool_decide_eq_true_2; [done|].
      apply elem_of_obj_keys_set. by left.
    + rewrite lookup_insert_ne by done. rewrite foldl_insert_lookup.
      rewrite (bool_decide_ext (k ∈ obj_keys (obj_set key v (data (ComfigParser.section_ p))))
                 (k ∈ obj_keys (data (ComfigParser.section_ p)))); [done|].
      rewrite elem_of_obj_keys_set. naive_solver.
  - by apply Forall_obj_set.
Qed.

Lemma step_ok p l line p' l' :
  includes LF line = false →
  parser_ok p → last_ok l →
  ComfigParser.step (p, l) line = Ok (p', l') →
  parser_ok p' ∧ last_ok l'.
Proof.
  intros Hline Hp Hl. unfold ComfigParser.step.
  destruct (String.eqb (trim line) EmptyString).
  { destruct l; intros [= <- <-]; split; try done; by apply flush_ok. }
  destruct (match_multistring line) as [key|] eqn:Em.
  { apply match_multistring_key in Em. by intros [= <- <-]. }
  assert (Harr : ∀ key, match_array line = Some key →
            Ok (p, ComfigParser.LArray key []) = Ok (p', l') → parser_ok p' ∧ last_ok l').
  { intros key Ek%match_array_key [= <- <-]. split; [done|]. by split. }
  assert (Hobj : ∀ key, match_object line = Some key →
            Ok (p, ComfigParser.LObject key []) = Ok (p', l') → parser_ok p' ∧ last_ok l').
  { intros key Ek%match_object_key [= <- <-]. split; [done|]. by split. }
  assert (Hopt : match match_option line with
                 | Some (key, v) =>
                     Ok (ComfigParser.addKey p key (ComfigParser.convertValue v),
                         ComfigParser.LNone)
                 | None => Ok (ComfigParser.addComment p line, ComfigParser.LNone)
                 end = Ok (p', l') → parser_ok p' ∧ last_ok l').
  { destruct (match_option line) as [[key v]|] eqn:Eo; intros [= <- <-]; split; try done.
    - apply match_option_key in Eo as [Hk Hv].
      apply addKey_ok; [done | done |]. by apply simple_flat, convertValue_dot.
    - by apply addComment_ok. }
  assert (Hrest : match match_object line, l with
                  | Some key, _ => Ok (p, ComfigParser.LObject key [])
                  | None, ComfigParser.LObject key buffer =>
                      if negb (String.eqb (trim line) "}") then
                        match match_objectBody line with
                        | Some (skey, v) =>
                            Ok (p, ComfigParser.LObject key
                                     (obj_set skey (ComfigParser.convertValue v) buffer))
                        | None => Throw "TypeError"
                        end
                      else Ok (ComfigParser.addKey p key (VObj buffer), ComfigParser.LNone)
                  | None, _ =>
                      match match_option line with
                      | Some (key, v) =>
                          Ok (ComfigParser.addKey p key (ComfigParser.convertValue v),
                              ComfigParser.LNone)
                      | None => Ok (ComfigParser.addComment p line, ComfigParser.LNone)
                      end
                  end = Ok (p', l') → parser_ok p' ∧ last_ok l').
  { destruct (match_object line) as [key|] eqn:Eo; [by apply Hobj|].
    destruct l as [| |key buffer|key buffer|key buffer]; try done.
    destruct Hl as [Hk Hb]. destruct (negb _).
    - destruct (match_objectBody line) as [[skey v]|] eqn:Eb; [|done].
      apply match_objectBody_key in Eb as [Hsk Hv].
      intros [= <- <-]. split; [done|]. split; [done|].
      apply Forall_obj_set; [|done]. split; [done | by apply convertValue_dot].
    - intros [= <- <-]. split; [|done]. by apply addKey_ok. }
  destruct l as [| |key buffer|key buffer|key buffer].
  - destruct (match_array line) as [key|] eqn:Ea; [by apply Harr | exact Hrest].
  - destruct (match_array line) as [key|] eqn:Ea; [by apply Harr | exact Hrest].
  - destruct (negb _); intros [= <- <-]; split; try done. by apply addKey_ok.
  - destruct (match_array line) as [key'|] eqn:Ea; [by apply Harr|].
    destruct Hl as [Hk Hb]. destruct (negb _); intros [= <- <-].
    + split; [done|]. split; [done|]. apply Forall_app. split; [done|].
      constructor; [|done]. by apply convertValue_simple.
    + split; [|done]. by apply addKey_ok.
  - destruct (match_array line) as [key'|] eqn:Ea; [by apply Harr | exact Hrest].
Qed.

Lemma steps_ok lines : ∀ p l p' l',
  Forall (λ line, includes LF line = false) lines →
  parser_ok p → last_ok l →
  ComfigParser.steps (p, l) lines = Ok (p', l') →
  parser_ok p' ∧ last_ok l'.
Proof.
  induction lines as [|line lines IH]; intros p l p' l' Hlines Hp Hl.
  - rewrite steps_nil. by intros [= <- <-].
  - apply Forall_cons in Hlines as [Hline Hlines]. rewrite steps_cons.
    destruct (ComfigParser.step (p, l) line) as [[p1 l1]|] eqn:E; cbn [bind]; [|done].
    destruct (step_ok _ _ _ _ _ Hline Hp Hl E) as [Hp1 Hl1].
    by apply IH.
Qed.

Lemma parse_ok text p :
  ComfigParser.parse text = Ok p → parser_ok p.
Proof.
  unfold ComfigParser.parse.
  destruct (ComfigParser.steps _ _) as [[p1 l1]|] eqn:E; simpl; [|done].
  intros [= <-]. apply flush_ok.
  apply (steps_ok _ ComfigParser.init ComfigParser.LNone p1 l1
           (split_lines_clean LF _) init_ok I E).
Qed.



Lemma simple_not_compound v : simple v → compound v = false.
Proof. destruct v as [| | |[[]| |]| | |]; simpl; try done. by intros [? _]. Qed.

Lemma section_ok_flat t :
  Forall section_ok t → nested_compoundb t = false.
Proof.
  unfold nested_compoundb.
  induction 1 as [|s t [_ Hs] Ht IH]; cbn [existsb]; [done|].
  rewrite IH, orb_false_r.
  induction Hs as [|[k v] d [_ Hv] Hd IHd]; simpl; [done|].
  rewrite IHd, orb_false_r. clear IHd.
  destruct v as [| | | | |l|m]; simpl in *; try done.
  - induction Hv as [|x l Hx Hl IHl]; simpl; [done|].
    by rewrite IHl, simple_not_compound.
  - induction Hv as [|[k' x] m [_ Hx] Hm IHm]; simpl; [done|].
    by rewrite IHm, simple_not_compound.
Qed.

(** *** A sample text *)

(** A text with a comment, two keys, a blank line and an array. *)
Definition sample_text : string :=
  "# settings" +:+ nl +:+ "name: demo" +:+ nl +:+ "port = 8080" +:+ nl +:+ nl
  +:+ "tags: [" +:+ nl +:+ String TAB "a" +:+ nl +:+ String TAB "7" +:+ nl +:+ "]".

(** The store [import] builds from it. *)
Definition sample_imported : store :=
  {| opts := sample_opts;
     tree := [ {| comment := "# settings" +:+ nl;
                  data := [("name", VStr "demo"); ("port", VInt 8080)] |};
               {| comment := EmptyString;
                  data := [("tags", VArr [VStr "a"; VInt 7])] |} ];
     index := <["name" := 0]> (<["port" := 0]> (<["tags" := 1]> ∅)) |}.

Lemma sample_text_imported :
  import (Comfig.empty sample_opts) sample_text = Ok sample_imported.
Proof. vm_compute. reflexivity. Qed.


(** *** The imported store *)






(** X18.  What [import] has read, [serialize] writes: it does not raise. *)
Theorem serialize_after_import st text st' :
  import st text = Ok st' → ∃ out, serialize st' = Ok out.
Proof.
  unfold import. destruct (ComfigParser.parse text) as [p|] eqn:E; simpl; [|done].
  intros [= <-]. unfold serialize, ComfigSerializer.serialize. simpl.
  pose proof (parse_ok _ _ E) as [_ _ Ht _].
  pose proof (render_tree_result (opt_assign (opts st)) (opt_indent (opts st))
                (ComfigParser.tree_ p)) as H.
  rewrite (section_ok_flat _ Ht) in H. destruct H as [lines ->]. simpl. eauto.
Qed.

Lemma serialize_after_import_witness :
  ∃ out, serialize sample_imported = Ok out.
Proof.
  exact (serialize_after_import (Comfig.empty sample_opts) sample_text sample_imported
           sample_text_imported).
Defined.

(** *** Where [parse] can raise *)

Definition in_object (l : ComfigParser.last) : bool :=
  match l with ComfigParser.LObject _ _ => true | _ => false end.

Lemma step_returns p l line :
  match_object line = None → in_object l = false →
  ∃ p' l', ComfigParser.step (p, l) line = Ok (p', l') ∧ in_object l' = false.
Proof.
  intros Hline Hl. unfold ComfigParser.step. rewrite Hline.
  destruct (String.eqb (trim line) EmptyString).
  { destruct l; eauto. }
  destruct (match_multistring line); [eauto|].
  destruct l as [| |key buffer|key buffer|key buffer]; try done.
  - destruct (match_array line); [eauto|]. destruct (match_option line) as [[? ?]|]; eauto.
  - destruct (match_array line); [eauto|]. destruct (match_option line) as [[? ?]|]; eauto.
  - destruct (negb _); eauto.
  - destruct (match_array line); [eauto|]. destruct (negb _); eauto.
Qed.

Lemma steps_returns lines : ∀ p l,
  Forall (λ line, match_object line = None) lines → in_object l = false →
  ∃ st, ComfigParser.steps (p, l) lines = Ok st.
Proof.
  induction lines as [|line lines IH]; intros p l Hlines Hl.
  - rewrite steps_nil. eauto.
  - apply Forall_cons in Hlines as [Hline Hlines]. rewrite steps_cons.
    destruct (step_returns p l line Hline Hl) as (p1 & l1 & -> & Hl1). cbn [bind].
    by apply IH.
Qed.

(** X19.  [parse] can raise inside an object block only: a text without a
    line that opens an object block is parsed. *)
Theorem parse_returns text :
  Forall (λ line, match_object line = None) (split LF (remove_first CR text)) →
  ∃ p, ComfigParser.parse text = Ok p.
Proof.
  intros H. unfold ComfigParser.parse.
  destruct (steps_returns _ ComfigParser.init ComfigParser.LNone H eq_refl) as [st ->].
  simpl. eauto.
Qed.

Lemma parse_returns_witness : ∃ p, ComfigParser.parse sample_text = Ok p.
Proof.
  apply (parse_returns sample_text).
  apply (bool_decide_unpack _). vm_compute. exact I.
Defined.

(** ** Comments *)



(** The section an entity id names. *)
Definition locates (st : store) (e : Comfig.entity) (idx : nat) : Prop :=
  match e with
  | Comfig.EKey key => index st !! key = Some idx
  | Comfig.ESection z => z = Z.of_nat idx
  | Comfig.EOther => False
  end.

Lemma section_at_nat (t : list section) (idx : nat) :
  Comfig.section_at t (Z.of_nat idx) = t !! idx.
Proof.
  unfold Comfig.section_at. destruct (Z.ltb_spec (Z.of_nat idx) 0); [lia|].
  by rewrite Nat2Z.id.
Qed.





(** The lines of a formatted comment. *)
Lemma _formatComment_lines o (c : string) :
  c ≠ EmptyString →
  Comfig._formatComment o (Some c)
  = unlines (map (λ line, opt_comment o +:+ " " +:+ line) (split LF c)).
Proof.
  intros Hc. unfold Comfig._formatComment. destruct c as [|a r]; [done|].
  rewrite join_nl_unlines.
  destruct (split LF (String a r)) eqn:E; [by apply split_nonnil in E | done].
Qed.



Lemma getComment_at st e idx s raw :
  locates st e idx → tree st !! idx = Some s →
  Comfig.getComment st e raw = Ok (Comfig.comment_of raw (comment s)).
Proof.
  intros He Hs. destruct e as [z|key|]; simpl in He; [subst z| |done]; simpl.
  - unfold Comfig.getSectionComment. by rewrite section_at_nat, Hs.
  - unfold Comfig.getKeyComment. by rewrite He, Hs.
Qed.





(** X22.  [deleteComment] on a key or a section of the store leaves the
    section with the empty comment, which reads as the empty string and as
    no line; the data of the section stays. *)
Theorem deleteComment_clears st e idx s :
  locates st e idx → tree st !! idx = Some s →
  ∃ st',
    Comfig.deleteComment st e = Ok (st', RUndefined)
    ∧ tree st' = <[idx := {| comment := EmptyString; data := data s |}]> (tree st)
    ∧ index st' = index st
    ∧ Comfig.getComment st' e true = Ok (Comfig.CRaw EmptyString)
    ∧ Comfig.getComment st' e false = Ok (Comfig.CLines []).
Proof.
  intros He Hs.
  assert (Hset : Comfig._setComment st idx None (Comfig.CommentOpts false false)
                 = Ok (with_tree st
                         (<[idx := {| comment := EmptyString; data := data s |}]> (tree st)),
                       RUndefined)).
  { unfold Comfig._setComment. simpl. by rewrite Hs. }
  assert (Hlt : idx < length (tree st)) by by eapply lookup_lt_Some.
  eexists. split.
  { unfold Comfig.deleteComment.
    destruct e as [z|key|]; simpl in He; [subst z| |done]; cbn [Comfig.setComment].
    - unfold Comfig.setSectionComment. rewrite section_at_nat, Hs, Nat2Z.id. exact Hset.
    - unfold Comfig.setKeyComment. rewrite He. exact Hset. }
  split; [done|]. split; [done|].
  assert (Hloc : locates
            (with_tree st
               (<[idx := {| comment := EmptyString; data := data s |}]> (tree st))) e idx).
  { by destruct e. }
  rewrite !(getComment_at _ e idx _ _ Hloc (list_lookup_insert_eq _ _ _ Hlt)).
  done.
Qed.

Lemma deleteComment_clears_witness :
  ∃ st',
    Comfig.deleteComment sample_imported (Comfig.EKey "port") = Ok (st', RUndefined)
    ∧ tree st'
      = <[0 := {| comment := EmptyString;
                  data := [("name", VStr "demo"); ("port", VInt 8080)] |}]>
          (tree sample_imported)
    ∧ index st' = index sample_imported
    ∧ Comfig.getComment st' (Comfig.EKey "port") true = Ok (Comfig.CRaw EmptyString)
    ∧ Comfig.getComment st' (Comfig.EKey "port") false = Ok (Comfig.CLines []).
Proof.
  exact (deleteComment_clears sample_imported (Comfig.EKey "port") 0 _ eq_refl eq_refl).
Defined.

(** *** A formatted comment in a text *)

(** A comment symbol the parser takes for the start of a comment: it
    starts with a character that is no blank and no key character, and
    holds no line terminator. *)
Definition comment_symbol (sym : string) : Prop :=
  match sym with
  | String a _ =>
      is_space a = false ∧ is_keychar a = false ∧ str_all is_dot sym = true
  | EmptyString => False
  end.

Lemma formatted_comment_lines sym (ls : list string) :
  comment_symbol sym → Forall (λ l, str_all is_dot l = true) ls →
  Forall comment_line (map (λ line, sym +:+ " " +:+ line) ls).
Proof.
  intros Hsym Hls. apply Forall_map. eapply Forall_impl; [exact Hls|].
  intros l Hl. cbv beta. destruct sym as [|a r]; [done|].
  destruct Hsym as (Hsp & Hk & Hd).
  change (String a r +:+ " " +:+ l) with (String a (r +:+ " " +:+ l)).
  split; [|split].
  - change (String a (r +:+ " " +:+ l)) with (String a r +:+ " " +:+ l).
    rewrite !str_all_app, Hd, Hl. done.
  - destruct (trim_head a (r +:+ " " +:+ l) Hsp) as [x ->]. done.
  - by apply match_key_assign_no_key.
Qed.

Lemma flush_push p :
  comment (ComfigParser.section_ p) ≠ EmptyString →
  ComfigParser.flush p
  = {| ComfigParser.section_ := {| comment := EmptyString; data := [] |};
       ComfigParser.sectionId := S (ComfigParser.sectionId p);
       ComfigParser.tree_ := ComfigParser.tree_ p ++ [ComfigParser.section_ p];
       ComfigParser.object_ := ComfigParser.object_ p;
       ComfigParser.index_ := ComfigParser.index_ p |}.
Proof.
  intros H. unfold ComfigParser.flush.
  by destruct (String.eqb_spec (comment (ComfigParser.section_ p)) EmptyString).
Qed.

Lemma flush_idle p :
  ComfigParser.section_ p = {| comment := EmptyString; data := [] |} →
  ComfigParser.flush p = p.
Proof. intros H. unfold ComfigParser.flush. by rewrite H. Qed.

(** X23.  The parser reads a comment formatted by [_formatComment] back as the
    comment of one section without keys. *)
Theorem formatted_comment_parses o (c : string) :
  comment_symbol (opt_comment o) → c ≠ EmptyString → includes CR c = false →
  ∃ p,
    ComfigParser.parse (Comfig._formatComment o (Some c)) = Ok p
    ∧ ComfigParser.tree_ p
      = [ {| comment := Comfig._formatComment o (Some c); data := [] |} ].
Proof.
  intros Hsym Hc Hcr.
  rewrite _formatComment_lines by done.
  set (ls := map (λ line, opt_comment o +:+ " " +:+ line) (split LF c)).
  assert (Hdots : Forall (λ l, str_all is_dot l = true) (split LF c)).
  { pose proof (split_lines_clean LF c) as H1.
    pose proof (includes_split CR c Hcr) as H2.
    rewrite Forall_forall in *. intros l Hl.
    specialize (H1 l Hl). specialize (H2 l Hl).
    apply includes_false in H1, H2. clear -H1 H2.
    induction l as [|a l IH]; simpl in *; [done|].
    apply andb_true_iff in H1 as [Ha1 Hl1]. apply andb_true_iff in H2 as [Ha2 Hl2].
    rewrite IH by done. unfold is_dot.
    apply negb_true_iff in Ha1, Ha2. by rewrite Ha1, Ha2. }
  pose proof (formatted_comment_lines _ _ Hsym Hdots) as Hls. fold ls in Hls.
  assert (Hne : ls ≠ []).
  { unfold ls. destruct (split LF c) eqn:E; [by apply split_nonnil in E | done]. }
  assert (Hclean : Forall (λ l, includes LF l = false) ls
                   ∧ Forall (λ l, includes CR l = false) ls).
  { split; eapply Forall_impl; try exact Hls; intros l (Hd & _ & _).
    - by apply str_dot_no_LF.
    - by apply str_dot_no_CR. }
  destruct Hclean as [Hlf Hcr'].
  unfold ComfigParser.parse.
  rewrite remove_first_absent by (by apply includes_unlines).
  rewrite <- (app_nil_r_s (unlines ls)), split_unlines by done.
  change (split LF EmptyString) with [EmptyString].
  rewrite steps_app, (steps_comment ls ComfigParser.init ComfigParser.LNone I Hls).
  cbn [bind].
  destruct ls as [|l0 ls0] eqn:Els; [done|]. rewrite <- Els in *.
  rewrite steps_cons, step_blank. cbn [bind]. rewrite steps_nil. cbn [bind fst].
  destruct (addComment_fold ls ComfigParser.init) as [Hsec Htree].
  eexists. split; [done|].
  assert (Hnon : unlines ls ≠ EmptyString).
  { intros H%unlines_empty. done. }
  rewrite (flush_push (foldl ComfigParser.addComment ComfigParser.init ls))
    by (by rewrite Hsec).
  rewrite flush_idle by done. cbn [ComfigParser.tree_].
  by rewrite Htree, Hsec, app_nil_r_s.
Qed.

Lemma formatted_comment_parses_witness :
  ∃ p,
    ComfigParser.parse
      (Comfig._formatComment sample_opts (Some ("one" +:+ nl +:+ "two"))) = Ok p
    ∧ ComfigParser.tree_ p
      = [ {| comment := Comfig._formatComment sample_opts (Some ("one" +:+ nl +:+ "two"));
             data := [] |} ].
Proof.
  by apply (formatted_comment_parses sample_opts ("one" +:+ nl +:+ "two")).
Defined.

(** *** [convertCommentSymbol] *)









(** ** The constructor *)

Lemma span_drop_while p (s : string) :
  s = (span p s).1 +:+ drop_while p s.
Proof.
  induction s as [|c s IH]; simpl; [done|]. destruct (p c); [|done].
  destruct (span p s) as [a b]. simpl in *. by rewrite <- IH.
Qed.

(** X25.  The constructor accepts the options whose assign operator is blanks,
    [:] or [=], blanks and whose indentation is one or more spaces or tabs,
    and returns the empty store; it raises on all other options. *)
Theorem new_accepts o :
  match Comfig.new o with
  | Ok st =>
      st = Comfig.empty o
      ∧ (str_all is_dot (opt_assign o) = true → valid_options o)
  | Throw _ => ¬ valid_options o
  end.
Proof.
  unfold Comfig.new.
  destruct (Comfig.assign_test (opt_assign o)) eqn:Ea; simpl.
  - destruct (Comfig.indent_test (opt_indent o)) eqn:Ei; simpl.
    + split; [done|]. intros Hd.
      unfold Comfig.indent_test in Ei. apply andb_true_iff in Ei as [Hn Hi].
      constructor; [|done|done].
      unfold Comfig.assign_test in Ea.
      pose proof (span_drop_while is_space (opt_assign o)) as Hsplit.
      pose proof (span_fst_all is_space (opt_assign o)) as Hws.
      destruct (drop_while is_space (opt_assign o)) as [|c r]; [done|].
      apply andb_true_iff in Ea as [Hc Hr].
      exists (span is_space (opt_assign o)).1, c, r.
      rewrite Hsplit, !str_all_app in Hd. apply andb_true_iff in Hd as [Hd1 Hd2].
      simpl in Hd2. apply andb_true_iff in Hd2 as [_ Hd2].
      assert (Hblank : ∀ s, str_all is_space s = true → str_all is_dot s = true →
                str_all is_blank s = true).
      { induction s as [|a s IH]; simpl; [done|].
        intros [H1 H2]%andb_true_iff [H3 H4]%andb_true_iff.
        rewrite IH by done. unfold is_blank. by rewrite H1, H3. }
      split; [done|]. split; [by apply Hblank|]. split; [|by apply Hblank].
      apply orb_true_iff in Hc as [Hc|Hc]; apply Ascii.eqb_eq in Hc; auto.
    + intros [_ Hn Hi]. unfold Comfig.indent_test in Ei. by rewrite Hn, Hi in Ei.
  - intros [(ws1 & c & ws2 & Heq & Hw1 & Hc & Hw2) _ _].
    unfold Comfig.assign_test in Ea. rewrite Heq in Ea.
    assert (Hsp : ∀ s, str_all is_blank s = true → str_all is_space s = true).
    { intros s. apply str_all_impl. intros a. apply blank_is_space. }
    rewrite drop_while_app in Ea by by apply Hsp.
    rewrite drop_while_head in Ea by (destruct Hc as [->| ->]; done).
    rewrite (Hsp _ Hw2), andb_true_r in Ea.
    destruct Hc as [->| ->]; done.
Qed.

(** ** New keys and sections *)






(** *** Deleting a member *)






(** ** Writing a store and reading it again *)






(** ** The object form *)

Section Entries.

Context {A : Type}.
Implicit Types (o : list (string * A)) (x : A).

Lemma entries_get_replace_eq k x o :
  is_Some (Comfig.entries_get k o) →
  Comfig.entries_get k (Comfig.entries_replace k x o) = Some x.
Proof.
  induction o as [|[k' x'] o IH]; simpl; [by intros [? ?]|].
  destruct (String.eqb k' k) eqn:E; simpl; rewrite E; auto.
Qed.

Lemma entries_get_replace_ne k k' x o :
  k ≠ k' → Comfig.entries_get k' (Comfig.entries_replace k x o) = Comfig.entries_get k' o.
Proof.
  intros Hne. induction o as [|[k0 x0] o IH]; simpl; [done|].
  destruct (String.eqb_spec k0 k) as [->|Hk]; simpl.
  - apply String.eqb_neq in Hne. by rewrite Hne.
  - by rewrite IH.
Qed.

Lemma entries_get_insert_index_ne n k x k' o :
  k ≠ k' →
  Comfig.entries_get k' (Comfig.entries_insert_index n k x o) = Comfig.entries_get k' o.
Proof.
  intros Hne. apply String.eqb_neq in Hne.
  induction o as [|[k0 x0] o IH]; simpl; [by rewrite Hne|].
  destruct (array_index k0) as [n0|]; [destruct (n <? n0)%N|]; simpl;
    rewrite ?Hne, ?IH; done.
Qed.

Lemma entries_get_insert_index_eq n k x o :
  Comfig.entries_get k o = None →
  Comfig.entries_get k (Comfig.entries_insert_index n k x o) = Some x.
Proof.
  induction o as [|[k0 x0] o IH]; simpl; intros Hk; [by rewrite String.eqb_refl|].
  destruct (String.eqb k0 k) eqn:E; [done|].
  destruct (array_index k0) as [n0|]; [destruct (n <? n0)%N|]; simpl;
    rewrite ?String.eqb_refl, ?E; auto.
Qed.

Lemma entries_get_app k o1 o2 :
  Comfig.entries_get k (o1 ++ o2)
  = match Comfig.entries_get k o1 with
    | Some x => Some x
    | None => Comfig.entries_get k o2
    end.
Proof.
  induction o1 as [|[k' x'] o1 IH]; simpl; [done|]. by destruct (String.eqb k' k).
Qed.

Lemma entries_get_set_eq k x o :
  Comfig.entries_get k (Comfig.entries_set k x o) = Some x.
Proof.
  unfold Comfig.entries_set. destruct (Comfig.entries_get k o) as [y|] eqn:E; simpl.
  - apply entries_get_replace_eq. by rewrite E.
  - destruct (array_index k); [by apply entries_get_insert_index_eq|].
    rewrite entries_get_app, E. simpl. by rewrite String.eqb_refl.
Qed.

Lemma entries_get_set_ne k k' x o :
  k ≠ k' → Comfig.entries_get k' (Comfig.entries_set k x o) = Comfig.entries_get k' o.
Proof.
  intros Hne. unfold Comfig.entries_set. destruct (present _).
  - by apply entries_get_replace_ne.
  - destruct (array_index k); [by apply entries_get_insert_index_ne|].
    rewrite entries_get_app. destruct (Comfig.entries_get k' o); [done|]. simpl.
    apply String.eqb_neq in Hne. by rewrite Hne.
Qed.

End Entries.

Lemma obj_set_NoDup k v (o : object) :
  NoDup (obj_keys o) → NoDup (obj_keys (obj_set k v o)).
Proof.
  intros H. rewrite obj_keys_set. destruct (obj_has k o) eqn:E; [done|].
  apply NoDup_cons. split; [|done]. intros Hk%obj_has_true. congruence.
Qed.

(** [Object.assign(obj, d)] and then [obj[k]]. *)
Lemma assign_data_get k (d : object) : ∀ obj,
  NoDup (obj_keys d) →
  obj_get k (Comfig.assign_data obj d)
  = match obj_get k d with Some v => Some v | None => obj_get k obj end.
Proof.
  unfold Comfig.assign_data.
  induction d as [|[k0 v0] d IH]; intros obj Hnd; simpl; [done|].
  simpl in Hnd. apply NoDup_cons in Hnd as [Hk0 Hnd]. rewrite IH by done.
  destruct (String.eqb_spec k0 k) as [->|Hne].
  - apply obj_get_None in Hk0. by rewrite Hk0, obj_get_set_eq.
  - by rewrite obj_get_set_ne.
Qed.

Lemma assign_data_NoDup (d : object) : ∀ obj,
  NoDup (obj_keys obj) → NoDup (obj_keys (Comfig.assign_data obj d)).
Proof.
  unfold Comfig.assign_data.
  induction d as [|[k0 v0] d IH]; intros obj Hnd; simpl; [done|].
  by apply IH, obj_set_NoDup.
Qed.

(** The object [obj] that [object()] collects from the sections. *)
Definition collected (obj : object) (t : list section) : object :=
  foldl (λ obj entry, Comfig.assign_data obj (data entry)) obj t.

Lemma collected_NoDup t : ∀ obj,
  NoDup (obj_keys obj) → NoDup (obj_keys (collected obj t)).
Proof.
  induction t as [|s t IH]; intros obj Hnd; simpl; [done|].
  by apply IH, assign_data_NoDup.
Qed.

Lemma collected_get k t : ∀ obj,
  NoDup (all_keys t) →
  (∀ v, holds t k v → obj_get k (collected obj t) = Some v)
  ∧ (k ∉ all_keys t → obj_get k (collected obj t) = obj_get k obj).
Proof.
  induction t as [|s t IH]; intros obj Hnd.
  - split; [by intros v (i & s & Hi & _) | done].
  - rewrite all_keys_cons in Hnd.
    apply NoDup_app in Hnd as (Hs & Hd & Ht).
    destruct (IH (Comfig.assign_data obj (data s)) Ht) as [IH1 IH2].
    change (collected obj (s :: t)) with (collected (Comfig.assign_data obj (data s)) t).
    split.
    + intros v (i & s0 & Hi & Hv). destruct i as [|i]; simpl in Hi.
      * injection Hi as <-.
        rewrite IH2, assign_data_get, Hv by (done || apply Hd; by eapply obj_get_Some_elem).
        done.
      * apply IH1. by exists i, s0.
    + rewrite all_keys_cons. intros [Hk1 Hk2]%not_elem_of_app.
      rewrite IH2, assign_data_get by done.
      apply obj_get_None in Hk1. by rewrite Hk1.
Qed.

Lemma object_get k (obj : object) : ∀ c : list (string * Comfig.member),
  NoDup (obj_keys obj) →
  Comfig.entries_get k
    (foldl (λ c e, Comfig.entries_set e.1 (Comfig.Data e.2) c) c obj)
  = match obj_get k obj with
    | Some v => Some (Comfig.Data v)
    | None => Comfig.entries_get k c
    end.
Proof.
  induction obj as [|[k0 v0] obj IH]; intros c Hnd; simpl; [done|].
  simpl in Hnd. apply NoDup_cons in Hnd as [Hk0 Hnd]. rewrite IH by done.
  destruct (String.eqb_spec k0 k) as [->|Hne].
  - apply obj_get_None in Hk0. by rewrite Hk0, entries_get_set_eq.
  - by rewrite entries_get_set_ne.
Qed.

Lemma conf_get k :
  Comfig.entries_get k Comfig.conf
  = if bool_decide (k ∈ ["$"; "$save"; "$saveSync"; "$sync"])
    then Some (Comfig.Method k) else None.
Proof.
  unfold Comfig.conf. cbn [Comfig.entries_get].
  destruct (bool_decide (k ∈ ["$"; "$save"; "$saveSync"; "$sync"])) eqn:E.
  - apply bool_decide_eq_true in E.
    rewrite !elem_of_cons in E.
    destruct E as [->|[->|[->|[->|E%not_elem_of_nil]]]]; done.
  - apply bool_decide_eq_false in E. rewrite !elem_of_cons in E.
    destruct (String.eqb_spec "$" k) as [<-|?]; [exfalso; apply E; auto 10|].
    destruct (String.eqb_spec "$save" k) as [<-|?]; [exfalso; apply E; auto 10|].
    destruct (String.eqb_spec "$saveSync" k) as [<-|?]; [exfalso; apply E; auto 10|].
    destruct (String.eqb_spec "$sync" k) as [<-|?]; [exfalso; apply E; auto 10|].
    done.
Qed.

(** X30.  The object that [object()] returns has every key of the store with
    its value, and the four methods; a key of the store named as a method
    takes the place of the method. *)
Theorem object_has_data st k :
  NoDup (Comfig.getKeys st) →
  (∀ v, holds (tree st) k v →
     Comfig.entries_get k (Comfig.object st) = Some (Comfig.Data v))
  ∧ (k ∉ Comfig.getKeys st →
     Comfig.entries_get k (Comfig.object st)
     = if bool_decide (k ∈ ["$"; "$save"; "$saveSync"; "$sync"])
       then Some (Comfig.Method k) else None).
Proof.
  rewrite getKeys_all_keys. intros Hnd. unfold Comfig.object.
  fold (collected [] (tree st)).
  pose proof (collected_NoDup (tree st) [] (NoDup_nil_2)) as Hc.
  destruct (collected_get k (tree st) [] Hnd) as [H1 H2].
  split.
  - intros v Hv. rewrite object_get by exact Hc. by rewrite (H1 v Hv).
  - intros Hk. rewrite object_get by exact Hc. rewrite (H2 Hk). cbn [obj_get].
    apply conf_get.
Qed.

Lemma object_has_data_witness :
  Comfig.entries_get "c" (Comfig.object sample_store) = Some (Comfig.Data (VInt 3))
  ∧ Comfig.entries_get "$save" (Comfig.object sample_store)
    = Some (Comfig.Method "$save").
Proof.
  assert (Hnd : NoDup (Comfig.getKeys sample_store)).
  { apply (bool_decide_unpack _). by vm_compute. }
  split.
  - apply (object_has_data sample_store "c" Hnd).
    exists 1, {| comment := EmptyString; data := [("c", VInt 3)] |}. by split.
  - apply (object_has_data sample_store "$save" Hnd).
    apply (bool_decide_unpack _). by vm_compute.
Defined.
